(** * LOBPCG (scipy.sparse.linalg.eigen.lobpcg.lobpcg): a shallow embedding

    The embedded program is [src/scipy/sparse/linalg/eigen/lobpcg/lobpcg.py]:
    [as2d], [_makeOperator], [_applyConstraints], [_b_orthonormalize] and
    [lobpcg].  Python exceptions are an error monad, eigenvalue and residual
    vectors are sequences of binary64 floats, integers read by the caller
    ([maxiter], the [eigvals] range) are [Z], array dimensions are [nat].
    The numpy / scipy.linalg routines the file imports are not part of it:
    they are the fields of the interface [Numpy] below. *)

From Stdlib Require Import ZArith Lia String PrimFloat Uint63 Floats.
From mathcomp Require Import boot order algebra.

Set Implicit Arguments.
Unset Strict Implicit.
Unset Printing Implicit Defensive.

Delimit Scope Z_scope with coqZ.
Local Open Scope string_scope.
Local Open Scope seq_scope.

(** ** Exceptions *)

Inductive exn : Type :=
  | ValueError (msg : string)
  | NotImplementedError (msg : string)
  | IndexError (msg : string)
  | LinAlgError (msg : string)
  | AssertionError (msg : string)
  | AttributeError (name : string)     (* the attribute that is missing *)
  | OtherError (msg : string).

Inductive result (T : Type) : Type :=
  | Ok (x : T)
  | Raise (e : exn).

Arguments Ok {T} x.
Arguments Raise {T} e.

Definition bind {T U : Type} (c : result T) (k : T -> result U) : result U :=
  match c with
  | Ok x => k x
  | Raise e => Raise e
  end.

Notation "x <- c ;; k" := (bind c (fun x => k))
  (at level 61, c at next level, right associativity).
Notation "' p <- c ;; k" := (bind c (fun x => let p := x in k))
  (at level 61, p pattern, c at next level, right associativity).

Definition raises {T : Type} (c : result T) : bool :=
  if c is Raise _ then true else false.

(** ** binary64 vectors: ordering, argsort, fancy indexing *)

Definition is_nan (x : float) : bool := ~~ PrimFloat.eqb x x.

(** The order numpy sorts floats by: [a < b], with every NaN after every
    number. *)
Definition np_lt (a b : float) : bool :=
  PrimFloat.ltb a b || (is_nan b && ~~ is_nan a).

Definition np_le (a b : float) : bool := ~~ np_lt b a.

(** [np.argsort(v)]: the indices of [v] in ascending order of value.  numpy
    leaves the order of equal values open; here they keep their positions. *)
Definition argsort (v : seq float) : seq nat :=
  sort (fun i j => np_le (nth 0%float v i) (nth 0%float v j)) (iota 0 (size v)).

(** [v[ii]] for an index array [ii]. *)
Definition take_idx (v : seq float) (ii : seq nat) : seq float :=
  [seq nth 0%float v i | i <- ii].

(** Lines 282-284 and 412-414:
    [ii = np.argsort(_lambda)[:sizeX]; if largest: ii = ii[::-1]]. *)
Definition ritz_indices (largest : bool) (sizeX : nat) (_lambda : seq float)
  : seq nat :=
  let ii := take sizeX (argsort _lambda) in
  if largest then rev ii else ii.

(** [np.where(residualNorms > residualTolerance, True, False)]. *)
Definition above_tolerance (residualNorms : seq float) (tol : float) : seq bool :=
  [seq PrimFloat.ltb tol r | r <- residualNorms].

(** [a & b] on one-dimensional boolean arrays, with numpy's broadcasting of a
    length-one operand. *)
Definition np_band (a b : seq bool) : result (seq bool) :=
  if size a == size b then Ok [seq x.1 && x.2 | x <- zip a b]
  else if size a == 1 then Ok [seq head true a && y | y <- b]
  else if size b == 1 then Ok [seq x && head true b | x <- a]
  else Raise (ValueError "operands could not be broadcast together").

(** [int * float64]: dimensions are below 2^63. *)
Definition float_of_nat (n : nat) : float :=
  PrimFloat.of_uint63 (Uint63.of_Z (Z.of_nat n)).

(** Line 226: [np.sqrt(1e-15) * n]. *)
Definition default_tolerance (n : nat) : float :=
  PrimFloat.mul (PrimFloat.sqrt 1e-15%float) (float_of_nat n).

(** The machine epsilon of binary64 and of binary32. *)
Definition eps64 : float := 0x1p-52%float.
Definition eps32 : float := 0x1p-23%float.

(** ** The numpy / scipy interface the file is written against *)

(** [scipy.sparse.linalg.LinearOperator]: a declared shape, the attribute
    [dtype] when the operator has one, and the matrix-block product
    [matmat]. *)
Record LinearOperator (arr : Type) : Type := mkLinearOperator {
  op_shape : nat * nat;
  op_dtype : option string;
  matmat : arr -> result arr
}.

(** [operator.dtype]. *)
Definition dtype_of (arr : Type) (operator : LinearOperator arr)
  : result string :=
  match op_dtype operator with
  | Some d => Ok d
  | None => Raise (AttributeError "dtype")
  end.

(** Modelled from the spec: the class [LinearOperator] is imported from
    scipy.sparse.linalg (line 21) and is not defined in this file.  An
    operator has a fixed declared shape and applies to blocks with as many
    rows: [LinearOperator(shape, matvec, matmat=f, dtype=d)] declares
    [shape], has the attribute [dtype] only when [d] is given, and its
    [matmat] hands a block to [f] once the block is of rank 2 with as many
    rows as the shape has columns. *)
Definition LinearOperator_init (arr : Type) (shape_of : arr -> seq nat)
    (shape : nat * nat) (dtype : option string) (f : arr -> result arr)
  : LinearOperator arr :=
  mkLinearOperator shape dtype
    (fun X =>
       if size (shape_of X) != 2
       then Raise (ValueError "expected rank-2 array or matrix")
       else if nth 0 (shape_of X) 0 != shape.2
       then Raise (ValueError "dimension mismatch")
       else f X).

Class Numpy : Type := {
  ndarray : Type;                     (* arrays of rank 1 and 2 *)
  opinput : Type;                     (* what [aslinearoperator] accepts *)
  chofactor : Type;                   (* what [cho_factor] returns *)
  shape : ndarray -> seq nat;                           (* a.shape *)
  np_T : ndarray -> ndarray;                            (* a.T *)
  np_conjugate : ndarray -> ndarray;                    (* a.conjugate() *)
  np_eye : nat -> ndarray;                              (* np.eye(k) *)
  np_diag : seq float -> ndarray;                       (* np.diag(v) *)
  np_dot : ndarray -> ndarray -> result ndarray;        (* np.dot(a, b) *)
  np_add : ndarray -> ndarray -> result ndarray;        (* a + b *)
  np_sub : ndarray -> ndarray -> result ndarray;        (* a - b *)
  np_mul : ndarray -> ndarray -> result ndarray;        (* a * b *)
  mul_row : ndarray -> seq float -> result ndarray;     (* a * v[np.newaxis,:] *)
  np_sum0 : ndarray -> seq float;                       (* np.sum(a, 0) *)
  np_bmat : seq (seq ndarray) -> result ndarray;        (* np.bmat([[..],..]) *)
  take_cols : ndarray -> seq nat -> result ndarray;     (* a[:,ii] *)
  mask_cols : ndarray -> seq bool -> result ndarray;    (* a[:,mask] *)
  row_slice : ndarray -> option nat -> option nat -> ndarray;  (* a[lo:hi] *)
  astype_float64 : ndarray -> ndarray;                  (* a.astype(np.float64) *)
  reshape_column : ndarray -> result ndarray;  (* aux.shape = (ar.shape[0], 1) *)
  assert_allclose : ndarray -> ndarray -> float -> float -> result unit;
  aslinearoperator : opinput -> result (LinearOperator ndarray);
  cholesky : ndarray -> result ndarray;
  inv : ndarray -> result ndarray;
  cho_factor : ndarray -> result chofactor;
  cho_solve : chofactor -> ndarray -> result ndarray;
  eigh : ndarray -> option ndarray -> option (Z * Z)
         -> result (seq float * ndarray)
}.

(** ** [_b_orthonormalize] (lines 100-118)

    Written over two array types, blocks [blk] (n x k) and small square
    matrices [sq] (k x k), so that the same definition is run by [lobpcg] on
    [ndarray] and studied on matrices with their dimensions in the type.
    [dotT u w] is [np.dot(u.T, w)]. *)
Section BOrthonormalize.

Variables (blk sq : Type).
Variable dotT : blk -> blk -> result sq.
Variable dot : blk -> sq -> result blk.
Variable chol : sq -> result sq.
Variable inverse : sq -> result sq.

Definition _b_orthonormalize (B : option (blk -> result blk))
    (blockVectorV : blk) (blockVectorBV : option blk) (retInvR : bool)
  : result (blk * blk * option sq) :=
  blockVectorBV <-
    match blockVectorBV with
    | Some bv => Ok bv
    | None =>
        match B with
        | Some applyB => applyB blockVectorV
        | None => Ok blockVectorV
        end
    end ;;
  gramVBV <- dotT blockVectorV blockVectorBV ;;
  gramVBV <- chol gramVBV ;;
  gramVBV <- inverse gramVBV ;;
  blockVectorV <- dot blockVectorV gramVBV ;;
  blockVectorBV <-
    (if B is Some _ then dot blockVectorBV gramVBV else Ok blockVectorBV) ;;
  Ok (blockVectorV, blockVectorBV, if retInvR then Some gramVBV else None).

(** Unpacking the returned tuple into two, respectively three, names. *)
Definition unpack2 (t : blk * blk * option sq) : result (blk * blk) :=
  match t with
  | (v, bv, None) => Ok (v, bv)
  | (_, _, Some _) => Raise (ValueError "too many values to unpack")
  end.

Definition unpack3 (t : blk * blk * option sq) : result (blk * blk * sq) :=
  match t with
  | (v, bv, Some r) => Ok (v, bv, r)
  | (_, _, None) => Raise (ValueError "need more than 2 values to unpack")
  end.

End BOrthonormalize.

(** ** The helpers of the file *)
Section Helpers.

Context {K : Numpy}.

(** [as2d] (lines 45-55). *)
Definition as2d (ar : ndarray) : result ndarray :=
  if size (shape ar) == 2 then Ok ar else reshape_column ar.

(** [_assert_symmetric] (lines 37-38), with its default tolerances. *)
Definition _assert_symmetric (M : ndarray) : result unit :=
  assert_allclose (np_T M) M 1e-5%float 1e-8%float.

(** [_makeOperator] (lines 63-90).  Calling the operator it returns is
    calling its [matmat] (lines 84-88). *)
Definition _makeOperator (operatorInput : option opinput)
    (expectedShape : nat * nat) : result (LinearOperator ndarray) :=
  operator <-
    match operatorInput with
    | None =>
        let ident := fun x : ndarray => Ok x in
        Ok (LinearOperator_init shape expectedShape None ident)
    | Some input => aslinearoperator input
    end ;;
  if op_shape operator != expectedShape
  then Raise (ValueError "operator has invalid shape")
  else Ok operator.

(** [_applyConstraints] (lines 93-97).  The source updates [blockVectorV] in
    place; the new value is returned here. *)
Definition _applyConstraints (blockVectorV : ndarray) (factYBY : chofactor)
    (blockVectorBY blockVectorY : ndarray) : result ndarray :=
  gramYBV <- np_dot (np_T blockVectorBY) blockVectorV ;;
  tmp <- cho_solve factYBY gramYBV ;;
  yt <- np_dot blockVectorY tmp ;;
  np_sub blockVectorV yt.

(** [_b_orthonormalize] on [ndarray]. *)
Definition b_orthonormalize_nd :=
  _b_orthonormalize (fun u w => np_dot (np_T u) w) np_dot cholesky inv.

End Helpers.

(** ** The values [lobpcg] handles

    Parametrised by the type of arrays and of Cholesky factors. *)
Section State.

Variables (arr cho : Type).

(** The objects a returned tuple holds. *)
Inductive pyobj : Type :=
  | Vec (v : seq float)
  | Arr (a : arr)
  | Hist (h : seq (seq float)).

(** What the loop reads and never assigns. *)
Record loop_environment : Type := mkEnv {
  A_op : LinearOperator arr;
  B_op : LinearOperator arr;
  M_op : LinearOperator arr;
  dim_n : nat;
  sizeX : nat;
  largest : bool;
  residualTolerance : float;
  maxIterations : Z;
  constraints : option (cho * arr * arr);
                                    (* gramYBY, blockVectorBY, blockVectorY *)
  ident0 : arr
}.

(** The variables the loop assigns. *)
Record loop_variables : Type := mkVars {
  failureFlag : bool;
  _lambda : seq float;
  blockVectorX : arr;
  blockVectorAX : arr;
  blockVectorBX : arr;
  blockVectorP : option arr;
  blockVectorAP : option arr;
  blockVectorBP : option arr;
  activeMask : seq bool;
  lambdaHistory : seq (seq float);
  residualNormsHistory : seq (seq float);
  previousBlockSize : nat;
  ident : arr
}.

(** How the code before the loop ends: by the [return] of the dense
    fallback, or at the loop. *)
Inductive preparation : Type :=
  | Return (r : seq pyobj)
  | Iterate (env : loop_environment) (vars : loop_variables).

(** How a pass of the loop ends: by [break], or at the next pass. *)
Inductive continuation : Type :=
  | Break (vars : loop_variables)
  | Next (vars : loop_variables).

End State.

Arguments Vec {arr} v.
Arguments Hist {arr} h.
Arguments Return {arr cho} r.

(** ** [lobpcg] (lines 121-489)

    [verbosityLevel] is left at its default 0: the printing, [save] and
    [pause] of the other levels do not change what is computed. *)
Section Lobpcg.

Context {K : Numpy}.

Definition pytuple : Type := seq (pyobj ndarray).
Definition loop_env : Type := loop_environment ndarray chofactor.
Definition loop_vars : Type := loop_variables ndarray.
Definition prepared : Type := preparation ndarray chofactor.
Definition control : Type := continuation ndarray.

(** Lines 190-193. *)
Definition sizeY_of (blockVectorY : option ndarray) : result nat :=
  match blockVectorY with
  | Some y =>
      if 1 < size (shape y) then Ok (nth 0 (shape y) 1)
      else Raise (IndexError "tuple index out of range")
  | None => Ok 0
  end.

(** Line 207: [(n - sizeY) < (5 * sizeX)] on Python integers. *)
Definition too_small (n sizeY sizeX : nat) : bool :=
  (Z.of_nat n - Z.of_nat sizeY <? 5 * Z.of_nat sizeX)%coqZ.

(** Lines 215-223. *)
Definition dense_eigensolver (A B : LinearOperator ndarray) (n sizeX : nat)
    (largest : bool) : result pytuple :=
  let eigvals :=
    if largest then (Z.of_nat n - Z.of_nat sizeX, Z.of_nat n - 1)%coqZ
    else (0, Z.of_nat sizeX - 1)%coqZ in
  A_dense <- matmat A (np_eye n) ;;
  B_dense <- matmat B (np_eye n) ;;
  '(w, v) <- eigh A_dense (Some B_dense) (Some eigvals) ;;
  Ok [:: Vec w; Arr v].

(** A variable that still holds [None] where an array is indexed. *)
Definition subscript (a : option ndarray) : result ndarray :=
  match a with
  | Some x => Ok x
  | None => Raise (OtherError "'NoneType' object is not subscriptable")
  end.

(** Lines 183-309: everything before the main loop.  The arrays of the
    interface have one element type, so that of [A.dtype] only the read is
    kept (lines 301-302): [np.eye(sizeX, dtype=A.dtype)] is [np_eye sizeX]. *)
Definition lobpcg_prepare (A : option opinput) (X : ndarray)
    (B M : option opinput) (Y : option ndarray) (tol : option float)
    (maxiter : Z) (largest : bool) : result prepared :=
  let blockVectorX := X in
  let blockVectorY := Y in
  sizeY <- sizeY_of blockVectorY ;;
  if size (shape blockVectorX) != 2
  then Raise (ValueError "expected rank-2 array for argument X") else
  let n := nth 0 (shape blockVectorX) 0 in
  let sizeX := nth 0 (shape blockVectorX) 1 in
  if n < sizeX
  then Raise (ValueError "X column dimension exceeds the row dimension") else
  A <- _makeOperator A (n, n) ;;
  B <- _makeOperator B (n, n) ;;
  M <- _makeOperator M (n, n) ;;
  if too_small n sizeY sizeX then
    if blockVectorY is Some _
    then Raise (NotImplementedError
                  "The dense eigensolver does not support constraints.")
    else r <- dense_eigensolver A B n sizeX largest ;; Ok (Return r)
  else
  let residualTolerance :=
    if tol is Some t then t else default_tolerance n in
  let maxIterations := Z.min (Z.of_nat n) maxiter in
  cX <-
    match blockVectorY with
    | Some blockVectorY =>
        blockVectorBY <- matmat B blockVectorY ;;
        gramYBY <- np_dot (np_T blockVectorY) blockVectorBY ;;
        gramYBY <-
          match cho_factor gramYBY with
          | Ok f => Ok f
          | Raise _ =>
              Raise (ValueError "cannot handle linearly dependent constraints")
          end ;;
        x <- _applyConstraints blockVectorX gramYBY blockVectorBY blockVectorY ;;
        Ok (Some (gramYBY, blockVectorBY, blockVectorY), x)
    | None => Ok (None, blockVectorX)
    end ;;
  let '(constraints, blockVectorX) := cX in
  t <- b_orthonormalize_nd (Some (matmat B)) blockVectorX None false ;;
  '(blockVectorX, blockVectorBX) <- unpack2 t ;;
  blockVectorAX <- matmat A blockVectorX ;;
  gramXAX <- np_dot (np_T blockVectorX) blockVectorAX ;;
  gramXBX <- np_dot (np_T blockVectorX) blockVectorX ;;
  '(_lambda, eigBlockVector) <- eigh gramXAX None None ;;
  let ii := ritz_indices largest sizeX _lambda in
  let _lambda := take_idx _lambda ii in
  eigBlockVector <- take_cols eigBlockVector ii ;;
  blockVectorX <- np_dot blockVectorX eigBlockVector ;;
  blockVectorAX <- np_dot blockVectorAX eigBlockVector ;;
  blockVectorBX <- np_dot blockVectorBX eigBlockVector ;;
  dtype <- dtype_of A ;;
  Ok (Iterate
        (mkEnv A B M n sizeX largest residualTolerance maxIterations
               constraints (np_eye sizeX))
        (mkVars true _lambda blockVectorX blockVectorAX blockVectorBX
                None None None
                (nseq sizeX true) [:: _lambda] [::] sizeX (np_eye sizeX))).

(** Lines 315-319 and 470-474: the residual block and its column norms. *)
Definition residuals (v : loop_vars) : result (ndarray * seq float) :=
  aux <- mul_row (blockVectorBX v) (_lambda v) ;;
  blockVectorR <- np_sub (blockVectorAX v) aux ;;
  aux <- np_mul (np_conjugate blockVectorR) blockVectorR ;;
  let residualNorms := [seq PrimFloat.sqrt x | x <- np_sum0 aux] in
  Ok (blockVectorR, residualNorms).

(** Lines 312-468: one pass through the body of the main loop. *)
Definition loop_body (env : loop_env) (iterationNumber : nat) (v : loop_vars)
  : result control :=
  let A := matmat (A_op env) in
  let B := matmat (B_op env) in
  let M := matmat (M_op env) in
  let sizeX := sizeX env in
  '(blockVectorR, residualNorms) <- residuals v ;;
  let residualNormsHistory := rcons (residualNormsHistory v) residualNorms in
  let ii := above_tolerance residualNorms (residualTolerance env) in
  activeMask <- np_band (activeMask v) ii ;;
  let currentBlockSize := count id activeMask in
  let resized := currentBlockSize != previousBlockSize v in
  let previousBlockSize :=
    if resized then currentBlockSize else previousBlockSize v in
  ident <-
    (if resized then dtype <- dtype_of (A_op env) ;; Ok (np_eye currentBlockSize)
     else Ok (ident v)) ;;
  if currentBlockSize == 0 then
    Ok (Break (mkVars false (_lambda v) (blockVectorX v) (blockVectorAX v)
                 (blockVectorBX v) (blockVectorP v) (blockVectorAP v)
                 (blockVectorBP v) activeMask (lambdaHistory v)
                 residualNormsHistory previousBlockSize ident))
  else
  r <- mask_cols blockVectorR activeMask ;;
  activeBlockVectorR <- as2d r ;;
  activeP <-
    (if 0 < iterationNumber then
       p <- subscript (blockVectorP v) ;;
       p <- mask_cols p activeMask ;;
       activeBlockVectorP <- as2d p ;;
       ap <- subscript (blockVectorAP v) ;;
       ap <- mask_cols ap activeMask ;;
       activeBlockVectorAP <- as2d ap ;;
       bp <- subscript (blockVectorBP v) ;;
       bp <- mask_cols bp activeMask ;;
       activeBlockVectorBP <- as2d bp ;;
       Ok (Some (activeBlockVectorP, activeBlockVectorAP, activeBlockVectorBP))
     else Ok None) ;;
  activeBlockVectorR <- M activeBlockVectorR ;;
  activeBlockVectorR <-
    (if constraints env is Some (gramYBY, blockVectorBY, blockVectorY)
     then _applyConstraints activeBlockVectorR gramYBY blockVectorBY blockVectorY
     else Ok activeBlockVectorR) ;;
  aux <- b_orthonormalize_nd (Some B) activeBlockVectorR None false ;;
  '(activeBlockVectorR, activeBlockVectorBR) <- unpack2 aux ;;
  activeBlockVectorAR <- A activeBlockVectorR ;;
  activeP <-
    (if activeP is Some (activeBlockVectorP, activeBlockVectorAP, activeBlockVectorBP)
     then
       aux <- b_orthonormalize_nd (Some B) activeBlockVectorP
                (Some activeBlockVectorBP) true ;;
       '(activeBlockVectorP, activeBlockVectorBP, invR) <- unpack3 aux ;;
       activeBlockVectorAP <- np_dot activeBlockVectorAP invR ;;
       Ok (Some (activeBlockVectorP, activeBlockVectorAP, activeBlockVectorBP))
     else Ok None) ;;
  xaw <- np_dot (np_T (blockVectorX v)) activeBlockVectorAR ;;
  waw <- np_dot (np_T activeBlockVectorR) activeBlockVectorAR ;;
  xbw <- np_dot (np_T (blockVectorX v)) activeBlockVectorBR ;;
  grams <-
    (if activeP is Some (activeBlockVectorP, activeBlockVectorAP, activeBlockVectorBP)
     then
       xap <- np_dot (np_T (blockVectorX v)) activeBlockVectorAP ;;
       wap <- np_dot (np_T activeBlockVectorR) activeBlockVectorAP ;;
       pap <- np_dot (np_T activeBlockVectorP) activeBlockVectorAP ;;
       xbp <- np_dot (np_T (blockVectorX v)) activeBlockVectorBP ;;
       wbp <- np_dot (np_T activeBlockVectorR) activeBlockVectorBP ;;
       gramA <- np_bmat [:: [:: np_diag (_lambda v); xaw; xap];
                            [:: np_T xaw; waw; wap];
                            [:: np_T xap; np_T wap; pap]] ;;
       gramB <- np_bmat [:: [:: ident0 env; xbw; xbp];
                            [:: np_T xbw; ident; wbp];
                            [:: np_T xbp; np_T wbp; ident]] ;;
       Ok (gramA, gramB)
     else
       gramA <- np_bmat [:: [:: np_diag (_lambda v); xaw];
                            [:: np_T xaw; waw]] ;;
       gramB <- np_bmat [:: [:: ident0 env; xbw];
                            [:: np_T xbw; ident]] ;;
       Ok (gramA, gramB)) ;;
  let '(gramA, gramB) := grams in
  _ <- _assert_symmetric gramA ;;
  _ <- _assert_symmetric gramB ;;
  '(_lambda, eigBlockVector) <- eigh gramA (Some gramB) None ;;
  let ii := ritz_indices (largest env) sizeX _lambda in
  let _lambda := take_idx _lambda ii in
  e <- take_cols eigBlockVector ii ;;
  let eigBlockVector := astype_float64 e in
  let lambdaHistory := rcons (lambdaHistory v) _lambda in
  let eigBlockVectorX := row_slice eigBlockVector None (Some sizeX) in
  directions <-
    (if activeP is Some (activeBlockVectorP, activeBlockVectorAP, activeBlockVectorBP)
     then
       let eigBlockVectorR :=
         row_slice eigBlockVector (Some sizeX) (Some (sizeX + currentBlockSize)) in
       let eigBlockVectorP :=
         row_slice eigBlockVector (Some (sizeX + currentBlockSize)) None in
       pp <- np_dot activeBlockVectorR eigBlockVectorR ;;
       t <- np_dot activeBlockVectorP eigBlockVectorP ;;
       pp <- np_add pp t ;;
       app <- np_dot activeBlockVectorAR eigBlockVectorR ;;
       t <- np_dot activeBlockVectorAP eigBlockVectorP ;;
       app <- np_add app t ;;
       bpp <- np_dot activeBlockVectorBR eigBlockVectorR ;;
       t <- np_dot activeBlockVectorBP eigBlockVectorP ;;
       bpp <- np_add bpp t ;;
       Ok (pp, app, bpp)
     else
       let eigBlockVectorR := row_slice eigBlockVector (Some sizeX) None in
       pp <- np_dot activeBlockVectorR eigBlockVectorR ;;
       app <- np_dot activeBlockVectorAR eigBlockVectorR ;;
       bpp <- np_dot activeBlockVectorBR eigBlockVectorR ;;
       Ok (pp, app, bpp)) ;;
  let '(pp, app, bpp) := directions in
  t <- np_dot (blockVectorX v) eigBlockVectorX ;;
  blockVectorX <- np_add t pp ;;
  t <- np_dot (blockVectorAX v) eigBlockVectorX ;;
  blockVectorAX <- np_add t app ;;
  t <- np_dot (blockVectorBX v) eigBlockVectorX ;;
  blockVectorBX <- np_add t bpp ;;
  Ok (Next (mkVars (failureFlag v) _lambda blockVectorX blockVectorAX
              blockVectorBX (Some pp) (Some app) (Some bpp) activeMask
              lambdaHistory residualNormsHistory previousBlockSize ident)).

(** Line 311: [for iterationNumber in xrange(maxIterations)], with [passes]
    passes still to run. *)
Fixpoint main_loop (env : loop_env) (passes : nat) (iterationNumber : nat)
    (v : loop_vars) : result loop_vars :=
  match passes with
  | 0 => Ok v
  | passes'.+1 =>
      c <- loop_body env iterationNumber v ;;
      match c with
      | Break v' => Ok v'
      | Next v' => main_loop env passes' iterationNumber.+1 v'
      end
  end.

(** Lines 480-489. *)
Definition format_result (retLambdaHistory retResidualNormsHistory : bool)
    (v : loop_vars) : pytuple :=
  if retLambdaHistory then
    if retResidualNormsHistory
    then [:: Vec (_lambda v); Arr (blockVectorX v);
             Hist (lambdaHistory v); Hist (residualNormsHistory v)]
    else [:: Vec (_lambda v); Arr (blockVectorX v); Hist (lambdaHistory v)]
  else
    if retResidualNormsHistory
    then [:: Vec (_lambda v); Arr (blockVectorX v);
             Hist (residualNormsHistory v)]
    else [:: Vec (_lambda v); Arr (blockVectorX v)].

(** Lines 470-489: the final residual norms, then the returned tuple. *)
Definition lobpcg_finish (retLambdaHistory retResidualNormsHistory : bool)
    (v : loop_vars) : result pytuple :=
  '(blockVectorR, residualNorms) <- residuals v ;;
  Ok (format_result retLambdaHistory retResidualNormsHistory v).

Definition lobpcg (A : option opinput) (X : ndarray)
    (B M : option opinput) (Y : option ndarray) (tol : option float)
    (maxiter : Z) (largest : bool)
    (retLambdaHistory retResidualNormsHistory : bool) : result pytuple :=
  p <- lobpcg_prepare A X B M Y tol maxiter largest ;;
  match p with
  | Return r => Ok r
  | Iterate env v0 =>
      v <- main_loop env (Z.to_nat (maxIterations env)) 0 v0 ;;
      lobpcg_finish retLambdaHistory retResidualNormsHistory v
  end.

End Lobpcg.

(** ** [_b_orthonormalize] in exact arithmetic

    Blocks are matrices over a real field with their dimensions in the type,
    [np.dot] is the matrix product.  [scipy.linalg.inv] and
    [scipy.linalg.cholesky] are not among the source files: the first is
    modelled below, the second is a parameter of [mx_b_orthonormalize] with
    the contract [cholesky_contract]. *)
Section ExactArithmetic.

Local Open Scope ring_scope.

Variable F : realFieldType.
Variables n k : nat.

Definition mx_dotT (U W : 'M[F]_(n, k)) : result 'M[F]_k := Ok (U^T *m W).

Definition mx_dot (U : 'M[F]_(n, k)) (S : 'M[F]_k) : result 'M[F]_(n, k) :=
  Ok (U *m S).

(** Modelled from the spec: [scipy.linalg.inv], which is missing from the
    source files ("invert R"); a singular matrix is reported by
    [LinAlgError]. *)
Definition mx_inv (R : 'M[F]_k) : result 'M[F]_k :=
  if R \in unitmx then Ok (invmx R) else Raise (LinAlgError "singular matrix").

(** [B] as an operator: a matrix, or absent. *)
Definition mx_apply (B : option 'M[F]_n) (V : 'M[F]_(n, k)) : 'M[F]_(n, k) :=
  if B is Some Bm then Bm *m V else V.

Definition mx_operator (B : option 'M[F]_n)
  : option ('M[F]_(n, k) -> result 'M[F]_(n, k)) :=
  if B is Some Bm then Some (fun V => Ok (Bm *m V)) else None.

Definition symmetric_positive_definite (G : 'M[F]_k) : Prop :=
  G^T = G /\ forall x : 'cV[F]_k, x != 0 -> 0 < (x^T *m G *m x) 0 0.

Definition upper_triangular (R : 'M[F]_k) : Prop := is_trig_mx R^T.

(** Modelled from the spec: [scipy.linalg.cholesky], which is missing from
    the source files, at the matrix [G] ("Cholesky-factor Gram = R^T R with R
    upper-triangular", "raises RankDeficiency if the Gram matrix is not
    positive definite"). *)
Definition cholesky_contract (chol : 'M[F]_k -> result 'M[F]_k) (G : 'M[F]_k)
  : Prop :=
  (symmetric_positive_definite G ->
     exists R, [/\ chol G = Ok R, upper_triangular R & R^T *m R = G]) /\
  (~ symmetric_positive_definite G ->
     chol G = Raise (LinAlgError "matrix is not positive definite")).

Definition mx_b_orthonormalize (chol : 'M[F]_k -> result 'M[F]_k) :=
  _b_orthonormalize mx_dotT mx_dot chol mx_inv.

End ExactArithmetic.

Arguments mx_operator {F n k} B.
Arguments mx_b_orthonormalize {F n k} chol B blockVectorV blockVectorBV retInvR.

(** A Cholesky routine on 1 x 1 rational matrices that knows the factor of
    [(4)]. *)
Definition cholesky_of_4 (G : 'M[rat]_1) : result 'M[rat]_1 :=
  (if G == (4%:R)%:M then Ok (2%:R)%:M
   else Raise (LinAlgError "matrix is not positive definite"))%R.

(** The Cholesky factorisation of a 1 x 1 matrix over a real closed field. *)
Definition scalar_cholesky (F : rcfType) (G : 'M[F]_1) : result 'M[F]_1 :=
  (if 0 < G 0 0 then Ok (Num.sqrt (G 0 0))%:M
   else Raise (LinAlgError "matrix is not positive definite"))%R.

(** ** [_applyConstraints] (lines 93-97) over typed blocks

    The same four steps as [_applyConstraints], over the types of the block
    [V] (n x k), of the constraint blocks [Y] and [BY] (n x m), of the small
    matrices (m x k) and of the Cholesky factor. *)
Section ApplyConstraints.

Variables (blk cblk small fact : Type).
Variable dotT : cblk -> blk -> result small.       (* np.dot(BY.T, V) *)
Variable solve : fact -> small -> result small.    (* cho_solve(factYBY, .) *)
Variable dot : cblk -> small -> result blk.        (* np.dot(Y, tmp) *)
Variable sub : blk -> blk -> result blk.           (* V - . *)

Definition applyConstraints_over (blockVectorV : blk) (factYBY : fact)
    (blockVectorBY blockVectorY : cblk) : result blk :=
  gramYBV <- dotT blockVectorBY blockVectorV ;;
  tmp <- solve factYBY gramYBV ;;
  yt <- dot blockVectorY tmp ;;
  sub blockVectorV yt.

End ApplyConstraints.

(** Constraints in exact arithmetic: matrices over a field with their
    dimensions in the type. *)
Section ExactConstraints.

Local Open Scope ring_scope.

Variable F : fieldType.
Variables n k m : nat.

Definition mx_cdotT (BY : 'M[F]_(n, m)) (V : 'M[F]_(n, k))
  : result 'M[F]_(m, k) := Ok (BY^T *m V).

Definition mx_cdot (Y : 'M[F]_(n, m)) (T : 'M[F]_(m, k))
  : result 'M[F]_(n, k) := Ok (Y *m T).

Definition mx_sub (V W : 'M[F]_(n, k)) : result 'M[F]_(n, k) := Ok (V - W).

(** Modelled from the spec: [scipy.linalg.cho_solve], which is missing from
    the source files ("T = choleskySolve(factorYBY, BY^T V)"): for the
    upper factor [R] that [cho_factor] returns for a matrix [G = R^T R], the
    solution of [G x = b]. *)
Definition mx_cho_solve (R : 'M[F]_m) (b : 'M[F]_(m, k))
  : result 'M[F]_(m, k) := Ok (invmx (R^T *m R) *m b).

Definition mx_applyConstraints :=
  applyConstraints_over mx_cdotT mx_cho_solve mx_cdot mx_sub.

End ExactConstraints.

(** ** A reference implementation of the interface

    Dense arrays as lists of rows of binary64 floats, with textbook
    algorithms for the LAPACK routines (Cholesky by rows, Gauss-Jordan
    inversion, cyclic Jacobi rotations for the symmetric eigenproblem).  It
    serves to run [lobpcg] on concrete inputs; no general statement below
    depends on it. *)
Module Reference.

Local Notation "a +f b" := (PrimFloat.add a b) (at level 50, left associativity).
Local Notation "a -f b" := (PrimFloat.sub a b) (at level 50, left associativity).
Local Notation "a *f b" := (PrimFloat.mul a b) (at level 40, left associativity).
Local Notation "a /f b" := (PrimFloat.div a b) (at level 40, left associativity).

Definition matrix : Type := seq (seq float).

Inductive array : Type :=
  | Array1 (v : seq float)
  | Array2 (n k : nat) (rows : matrix).

Definition array_shape (a : array) : seq nat :=
  match a with
  | Array1 v => [:: size v]
  | Array2 n k _ => [:: n; k]
  end.

Definition entry (a : matrix) (i j : nat) : float :=
  nth 0%float (nth [::] a i) j.

Definition fsum (v : seq float) : float := foldl PrimFloat.add 0%float v.

Definition inner (u v : seq float) : float :=
  fsum [seq x.1 *f x.2 | x <- zip u v].

Definition column (a : matrix) (j : nat) : seq float :=
  [seq nth 0%float r j | r <- a].

Definition transpose (k : nat) (a : matrix) : matrix :=
  [seq column a j | j <- iota 0 k].

Definition matmul (a : matrix) (m : nat) (b : matrix) : matrix :=
  [seq [seq inner r (column b j) | j <- iota 0 m] | r <- a].

Definition identity (n : nat) : matrix :=
  [seq [seq if i == j then 1%float else 0%float | j <- iota 0 n] | i <- iota 0 n].

Definition diagonal (v : seq float) : matrix :=
  [seq [seq if i == j then nth 0%float v i else 0%float | j <- iota 0 (size v)]
  | i <- iota 0 (size v)].

Definition pointwise (f : float -> float -> float) (a b : matrix) : matrix :=
  [seq [seq f x.1 x.2 | x <- zip r.1 r.2] | r <- zip a b].

Definition shape_error {T : Type} : result T :=
  Raise (ValueError "operands could not be broadcast together").

Definition lift2 (f : float -> float -> float) (a b : array) : result array :=
  match a, b with
  | Array2 n k x, Array2 n' k' y =>
      if (n == n') && (k == k') then Ok (Array2 n k (pointwise f x y))
      else shape_error
  | Array1 x, Array1 y =>
      if size x == size y then Ok (Array1 [seq f p.1 p.2 | p <- zip x y])
      else shape_error
  | _, _ => shape_error
  end.

Definition array_T (a : array) : array :=
  match a with
  | Array1 v => Array1 v
  | Array2 n k x => Array2 k n (transpose k x)
  end.

Definition array_dot (a b : array) : result array :=
  match a, b with
  | Array2 n k x, Array2 k' m y =>
      if k == k' then Ok (Array2 n m (matmul x m y))
      else Raise (ValueError "matrices are not aligned")
  | _, _ => Raise (ValueError "matrices are not aligned")
  end.

Definition array_mul_row (a : array) (v : seq float) : result array :=
  match a with
  | Array2 n k x =>
      if k == size v
      then Ok (Array2 n k [seq [seq p.1 *f p.2 | p <- zip r v] | r <- x])
      else shape_error
  | Array1 x => lift2 PrimFloat.mul (Array1 x) (Array1 v)
  end.

Definition array_sum0 (a : array) : seq float :=
  match a with
  | Array1 v => [:: fsum v]
  | Array2 n k x => [seq fsum (column x j) | j <- iota 0 k]
  end.

(** [np.bmat]: the blocks of a row side by side, the rows of blocks on top
    of one another. *)
Definition hstack (blocks : seq array) : result array :=
  foldl (fun acc b =>
           acc <- acc ;;
           match acc, b with
           | Array2 n k x, Array2 n' k' y =>
               if (n == n') || (k == 0)
               then Ok (Array2 n' (k + k')
                          (if k == 0 then y
                           else [seq cat r.1 r.2 | r <- zip x y]))
               else Raise (ValueError "block row dimensions differ")
           | _, _ => Raise (ValueError "matrix must be 2-dimensional")
           end)
        (Ok (Array2 0 0 [::])) blocks.

Definition vstack (blocks : seq array) : result array :=
  foldl (fun acc b =>
           acc <- acc ;;
           match acc, b with
           | Array2 n k x, Array2 n' k' y =>
               if (k == k') || (n == 0)
               then Ok (Array2 (n + n') k' (cat x y))
               else Raise (ValueError "block column dimensions differ")
           | _, _ => Raise (ValueError "matrix must be 2-dimensional")
           end)
        (Ok (Array2 0 0 [::])) blocks.

Fixpoint sequence {T : Type} (cs : seq (result T)) : result (seq T) :=
  match cs with
  | [::] => Ok [::]
  | c :: cs' => x <- c ;; xs <- sequence cs' ;; Ok (x :: xs)
  end.

Definition array_bmat (blocks : seq (seq array)) : result array :=
  rows <- sequence [seq hstack r | r <- blocks] ;;
  vstack rows.

Definition array_take_cols (a : array) (ii : seq nat) : result array :=
  match a with
  | Array2 n k x =>
      if all (fun j => j < k) ii
      then Ok (Array2 n (size ii) [seq [seq nth 0%float r j | j <- ii] | r <- x])
      else Raise (IndexError "index out of bounds")
  | Array1 _ => Raise (IndexError "too many indices for array")
  end.

Definition true_positions (mask : seq bool) : seq nat :=
  filter (fun i => nth false mask i) (iota 0 (size mask)).

Definition array_mask_cols (a : array) (mask : seq bool) : result array :=
  match a with
  | Array2 n k x =>
      if size mask == k then array_take_cols a (true_positions mask)
      else Raise (IndexError "boolean index did not match indexed array")
  | Array1 _ => Raise (IndexError "too many indices for array")
  end.

Definition array_row_slice (a : array) (lo hi : option nat) : array :=
  let lo := if lo is Some l then l else 0 in
  match a with
  | Array1 v =>
      let hi := if hi is Some h then minn h (size v) else size v in
      Array1 (take (hi - lo) (drop lo v))
  | Array2 n k x =>
      let hi := if hi is Some h then minn h n else n in
      Array2 (minn (hi - lo) (n - lo)) k (take (hi - lo) (drop lo x))
  end.

Definition array_reshape_column (a : array) : result array :=
  match a with
  | Array1 v => Ok (Array2 (size v) 1 [seq [:: x] | x <- v])
  | Array2 n k x => Raise (ValueError "total size of new array must be unchanged")
  end.

Definition close (rtol atol : float) (x y : float) : bool :=
  PrimFloat.leb (PrimFloat.abs (x -f y)) (atol +f rtol *f PrimFloat.abs y).

Definition array_allclose (a b : array) (rtol atol : float) : result unit :=
  match a, b with
  | Array2 n k x, Array2 n' k' y =>
      if (n == n') && (k == k') &&
         all (fun r => all (fun p => close rtol atol p.1 p.2) (zip r.1 r.2))
             (zip x y)
      then Ok tt else Raise (AssertionError "Not equal to tolerance")
  | _, _ => Raise (AssertionError "Not equal to tolerance")
  end.

(** Upper Cholesky factor, row by row: [R^T R = G].  Only the upper
    triangle of [G] is read. *)
Definition cholesky_row (g : matrix) (k : nat) (done : matrix) (i : nat)
  : result (seq float) :=
  let d := entry g i i -f fsum [seq nth 0%float r i *f nth 0%float r i | r <- done] in
  if PrimFloat.ltb 0%float d then
    let rii := PrimFloat.sqrt d in
    Ok [seq if j < i then 0%float
            else if j == i then rii
            else (entry g i j
                  -f fsum [seq nth 0%float r i *f nth 0%float r j | r <- done])
                 /f rii
       | j <- iota 0 k]
  else Raise (LinAlgError "leading minor not positive definite").

Definition cholesky_upper (g : matrix) (k : nat) : result matrix :=
  foldl (fun acc i =>
           done <- acc ;; row <- cholesky_row g k done i ;; Ok (rcons done row))
        (Ok [::]) (iota 0 k).

Definition array_cholesky (a : array) : result array :=
  match a with
  | Array2 n k g =>
      if n == k then r <- cholesky_upper g k ;; Ok (Array2 k k r)
      else Raise (ValueError "expected square matrix")
  | Array1 _ => Raise (ValueError "expected square matrix")
  end.

(** Gauss-Jordan elimination on [[A | I]] with partial pivoting. *)
Definition pivot_row (m : matrix) (n c : nat) : nat :=
  foldl (fun p i =>
           if PrimFloat.ltb (PrimFloat.abs (entry m p c))
                            (PrimFloat.abs (entry m i c))
           then i else p)
        c (iota c (n - c)).

Definition swap_rows (m : matrix) (i j : nat) : matrix :=
  [seq if p == i then nth [::] m j else if p == j then nth [::] m i
       else nth [::] m p
  | p <- iota 0 (size m)].

Definition eliminate (m : matrix) (n c : nat) : result matrix :=
  let m := swap_rows m c (pivot_row m n c) in
  let piv := entry m c c in
  if PrimFloat.ltb 0%float (PrimFloat.abs piv) then
    let prow := [seq x /f piv | x <- nth [::] m c] in
    Ok [seq if i == c then prow
            else let f := entry m i c in
                 [seq p.1 -f f *f p.2 | p <- zip (nth [::] m i) prow]
       | i <- iota 0 n]
  else Raise (LinAlgError "singular matrix").

Definition inverse (a : matrix) (n : nat) : result matrix :=
  m <- foldl (fun acc c => m <- acc ;; eliminate m n c)
             (Ok [seq cat r.1 r.2 | r <- zip a (identity n)]) (iota 0 n) ;;
  Ok [seq drop n r | r <- m].

(** LAPACK's getrf takes no matrix of order 0 (its leading dimension is to
    be 1 at least), which [inv] reports. *)
Definition array_inv (a : array) : result array :=
  match a with
  | Array2 n k x =>
      if n != k then Raise (ValueError "expected square matrix")
      else if n == 0
      then Raise (ValueError
                    "illegal value in 4-th argument of internal getrf|getri")
      else r <- inverse x n ;; Ok (Array2 n n r)
  | Array1 _ => Raise (ValueError "expected square matrix")
  end.

(** [cho_factor] keeps the upper factor; [cho_solve] solves
    [R^T R x = b] as [x = R^-1 (R^-T b)]. *)
Definition array_cho_factor (a : array) : result array := array_cholesky a.

Definition array_cho_solve (c b : array) : result array :=
  ri <- array_inv c ;;
  t <- array_dot (array_T ri) b ;;
  array_dot ri t.

(** Cyclic Jacobi: rotations in the (p, q) planes, [sweeps] rounds. *)
Definition rotation (n p q : nat) (c s : float) : matrix :=
  [seq [seq if (i == p) && (j == p) then c
            else if (i == q) && (j == q) then c
            else if (i == p) && (j == q) then s
            else if (i == q) && (j == p) then PrimFloat.opp s
            else if i == j then 1%float else 0%float
       | j <- iota 0 n]
  | i <- iota 0 n].

Definition rotate (n : nat) (av : matrix * matrix) (pq : nat * nat)
  : matrix * matrix :=
  let '(a, v) := av in
  let '(p, q) := pq in
  let apq := entry a p q in
  if PrimFloat.ltb 0%float (PrimFloat.abs apq) then
    let theta := (entry a q q -f entry a p p) /f (2%float *f apq) in
    let sgn := if PrimFloat.ltb theta 0%float then (-1)%float else 1%float in
    let t := sgn /f (PrimFloat.abs theta
                     +f PrimFloat.sqrt (theta *f theta +f 1%float)) in
    let c := 1%float /f PrimFloat.sqrt (t *f t +f 1%float) in
    let s := t *f c in
    let j := rotation n p q c s in
    (matmul (matmul (transpose n j) n a) n j, matmul v n j)
  else av.

Definition plane_pairs (n : nat) : seq (nat * nat) :=
  flatten [seq [seq (p, q) | q <- iota p.+1 (n - p.+1)] | p <- iota 0 n].

Definition jacobi (sweeps n : nat) (a : matrix) : seq float * matrix :=
  let av := iter sweeps (fun av => foldl (rotate n) av (plane_pairs n))
                 (a, identity n) in
  ([seq entry av.1 i i | i <- iota 0 n], av.2).

(** [eigh(a, b, eigvals=(lo, hi))]: eigenvalues ascending, eigenvectors in
    the columns, [b]-orthonormal. *)
Definition array_eigh (a : array) (b : option array) (eigvals : option (Z * Z))
  : result (seq float * array) :=
  match a with
  | Array2 n k x =>
      if n != k then Raise (ValueError "expected square matrix") else
      ri <-
        match b with
        | None => Ok (identity n)
        | Some (Array2 n' k' y) =>
            if (n' == n) && (k' == n)
            then r <- cholesky_upper y n ;; inverse r n
            else Raise (ValueError "wrong b dimensions")
        | Some (Array1 _) => Raise (ValueError "expected square matrix")
        end ;;
      let c := matmul (matmul (transpose n ri) n x) n ri in
      let '(w, q) := jacobi 12 n c in
      let v := matmul ri n q in
      let order := argsort w in
      range <-
        match eigvals with
        | None => Ok (0, n)
        | Some (lo, hi) =>
            if ((0 <=? lo) && (lo <=? hi) && (hi <? Z.of_nat n))%coqZ
            then Ok (Z.to_nat lo, Z.to_nat (hi - lo + 1))
            else Raise (ValueError "eigvals out of range")
        end ;;
      let ii := take range.2 (drop range.1 order) in
      Ok (take_idx w ii,
          Array2 n (size ii) [seq [seq nth 0%float r j | j <- ii] | r <- v])
  | Array1 _ => Raise (ValueError "expected square matrix")
  end.

(** A dense matrix as a linear operator. *)
Definition array_aslinearoperator (a : array) : result (LinearOperator array) :=
  match a with
  | Array2 n k _ =>
      Ok (LinearOperator_init array_shape (n, k) (Some "float64") (array_dot a))
  | Array1 _ => Raise (ValueError "expected rank-2 array or matrix")
  end.

#[export] Instance kernel : Numpy := {|
  ndarray := array;
  opinput := array;
  chofactor := array;
  shape := array_shape;
  np_T := array_T;
  np_conjugate := fun a => a;
  np_eye := fun n => Array2 n n (identity n);
  np_diag := fun v => Array2 (size v) (size v) (diagonal v);
  np_dot := array_dot;
  np_add := lift2 PrimFloat.add;
  np_sub := lift2 PrimFloat.sub;
  np_mul := lift2 PrimFloat.mul;
  mul_row := array_mul_row;
  np_sum0 := array_sum0;
  np_bmat := array_bmat;
  take_cols := array_take_cols;
  mask_cols := array_mask_cols;
  row_slice := array_row_slice;
  astype_float64 := fun a => a;
  reshape_column := array_reshape_column;
  assert_allclose := array_allclose;
  aslinearoperator := array_aslinearoperator;
  cholesky := array_cholesky;
  inv := array_inv;
  cho_factor := array_cho_factor;
  cho_solve := array_cho_solve;
  eigh := array_eigh
|}.

(** Test data: [diag(1, ..., n)] and an [n x k] block of full rank. *)
Definition diag_1_to (n : nat) : array :=
  Array2 n n (diagonal [seq float_of_nat i.+1 | i <- iota 0 n]).

Definition start_block (n k : nat) : array :=
  Array2 n k
    [seq [seq (1%float /f float_of_nat (i + j).+1)
              +f (if i == j then 1%float else 0%float)
         | j <- iota 0 k]
    | i <- iota 0 n].

End Reference.

(** ** Names used in the statements *)

(** The two errors of the validation of [X] (lines 196-201), which the
    specification calls InvalidInput. *)
Definition rank_error : exn :=
  ValueError "expected rank-2 array for argument X".

Definition column_error : exn :=
  ValueError "X column dimension exceeds the row dimension".

Definition is_InvalidInput {T : Type} (r : result T) : bool :=
  match r with
  | Raise (ValueError msg) =>
      String.eqb msg "expected rank-2 array for argument X"
      || String.eqb msg "X column dimension exceeds the row dimension"
  | _ => false
  end.

(** The error of line 212, which the specification calls NotImplemented. *)
Definition constraints_error : exn :=
  NotImplementedError "The dense eigensolver does not support constraints.".

(** The closed range of ranks the dense eigensolver is asked for
    (lines 216-219). *)
Definition dense_range (n sizeX : nat) (largest : bool) : Z * Z :=
  if largest then (Z.of_nat n - Z.of_nat sizeX, Z.of_nat n - 1)%coqZ
  else (0, Z.of_nat sizeX - 1)%coqZ.

(** The eigenvalues in a returned tuple, and the tolerance the loop is
    entered with. *)
Definition eigenvalues_of (r : result (seq (pyobj Reference.array)))
  : seq float :=
  if r is Ok (Vec w :: _) then w else [::].

Definition tolerance_of {K : Numpy} (p : result prepared) : option float :=
  if p is Ok (Iterate env _) then Some (residualTolerance env) else None.

(** Eigenvalues as [eigh] may return them for a Gram matrix of order 4. *)
Definition four_eigenvalues : seq float :=
  [:: 1%float; 2%float; 3%float; 4%float].

(** The loop variables a pass ends with. *)
Definition vars_of {K : Numpy} (c : control) : loop_vars :=
  match c with
  | Break v => v
  | Next v => v
  end.

(** Column [i] of an active mask: deflated (present and false) or active
    (present and true). *)
Definition deflated (mask : seq bool) (i : nat) : bool :=
  (i < size mask) && ~~ nth false mask i.

Definition active (mask : seq bool) (i : nat) : bool := nth false mask i.

(** How a mask [m'] obtained from [m] by [&] relates to it: the same length
    and pointwise below, or [m] was a single entry that numpy broadcast. *)
Definition mask_step (m m' : seq bool) : Prop :=
  (size m' = size m /\ forall i, nth false m' i -> nth false m i) \/
  (size m = 1 /\ (nth false m 0 = false -> forall i, nth false m' i = false)).

(** ** What the loop keeps between passes *)
Section LoopInvariantsStated.

Context {K : Numpy}.
Variable env : loop_env.

(** The bookkeeping the loop keeps between passes. *)
Definition block_size_invariant (v : loop_vars) : Prop :=
  previousBlockSize v = count id (activeMask v) /\
  ident v = np_eye (count id (activeMask v)).

Definition lambda_invariant (v : loop_vars) : Prop :=
  [/\ _lambda v = last [::] (lambdaHistory v),
      0 < size (lambdaHistory v)
    & all (fun l => size l <= sizeX env) (lambdaHistory v)].

End LoopInvariantsStated.

(** * Properties *)

(** ** Inverting the error monad *)

Lemma bind_Ok T U (c : result T) (k : T -> result U) (u : U) :
  bind c k = Ok u -> exists2 x, c = Ok x & k x = Ok u.
Proof. by case: c => [x|e] //= H; exists x. Qed.

Lemma bind_Raise T U (c : result T) (k : T -> result U) (e : exn) :
  c = Raise e -> bind c k = Raise e.
Proof. by move=> ->. Qed.

Ltac destruct_prods :=
  repeat match goal with
  | x : (_ * _)%type |- _ => destruct x
  end.

Ltac bind_inv H :=
  repeat (let x := fresh "x" in let E := fresh "E" in
          apply bind_Ok in H; destruct H as [x E H]; destruct_prods;
          cbv beta iota in H).

(** ** What one pass of the loop body does to the bookkeeping variables *)
Section LoopFacts.

Context {K : Numpy}.

Lemma loop_body_inv env it v c :
  loop_body env it v = Ok c ->
  exists R rn mask,
    [/\ residuals v = Ok (R, rn),
        np_band (activeMask v) (above_tolerance rn (residualTolerance env))
          = Ok mask
      & match c with
        | Break v' =>
            count id mask = 0 /\ failureFlag v' = false /\
            activeMask v' = mask /\
            residualNormsHistory v' = rcons (residualNormsHistory v) rn /\
            lambdaHistory v' = lambdaHistory v /\ _lambda v' = _lambda v /\
            blockVectorX v' = blockVectorX v
        | Next v' =>
            count id mask != 0 /\ failureFlag v' = failureFlag v /\
            activeMask v' = mask /\
            residualNormsHistory v' = rcons (residualNormsHistory v) rn /\
            lambdaHistory v' = rcons (lambdaHistory v) (_lambda v') /\
            exists gramA gramB w E,
              eigh gramA (Some gramB) None = Ok (w, E) /\
              _lambda v' = take_idx w (ritz_indices (largest env) (sizeX env) w)
        end].
Proof.
rewrite /loop_body => H.
apply bind_Ok in H; case: H => [[R rn] Eres H]; cbv beta iota zeta in H.
apply bind_Ok in H; case: H => [mask Emask H]; cbv beta zeta in H.
apply bind_Ok in H; case: H => [idn Eidn H].
exists R, rn, mask; split=> //.
move: H; case: ifP => [/eqP Hc|Hc] H.
  by case: H => <-.
bind_inv H.
case: H => <- /=; do !split=> //.
by eexists _, _, _, _; split; first exact: E14.
Qed.

End LoopFacts.

(** ** What the code before the loop establishes *)
Section PrepareFacts.

Context {K : Numpy}.

Lemma lobpcg_prepare_Iterate A X B M Y tol maxiter lg env v0 :
  lobpcg_prepare A X B M Y tol maxiter lg = Ok (Iterate env v0) ->
  let n := nth 0 (shape X) 0 in
  let k := nth 0 (shape X) 1 in
  [/\ exists2 sizeY, sizeY_of Y = Ok sizeY & too_small n sizeY k = false,
      [/\ dim_n env = n, sizeX env = k, largest env = lg
        & maxIterations env = Z.min (Z.of_nat n) maxiter],
      residualTolerance env = (if tol is Some t then t else default_tolerance n)
    & [/\ failureFlag v0 = true, activeMask v0 = nseq k true,
          lambdaHistory v0 = [:: _lambda v0]
        & residualNormsHistory v0 = [::]]].
Proof.
rewrite /lobpcg_prepare => H.
apply bind_Ok in H; case: H => [sizeY EY H].
move: H; case: ifP => // _; case: ifP => // _ H.
bind_inv H.
move: H; case Ets: too_small.
  by case: (Y) => [y|] // H; bind_inv H.
move=> H; bind_inv H.
by case: H => <- <- /=; split=> //; exists sizeY.
Qed.

Lemma lobpcg_prepare_Return A X B M Y tol maxiter lg r :
  lobpcg_prepare A X B M Y tol maxiter lg = Ok (Return r) ->
  let n := nth 0 (shape X) 0 in
  let k := nth 0 (shape X) 1 in
  [/\ Y = None, too_small n 0 k = true
    & exists opA opB, dense_eigensolver opA opB n k lg = Ok r].
Proof.
rewrite /lobpcg_prepare => H.
apply bind_Ok in H; case: H => [sizeY EY H].
move: H; case: ifP => // _; case: ifP => // _ H.
bind_inv H.
move: H; case Ets: too_small; last by move=> H; bind_inv H.
case: (Y) EY => [y|] //= [EY] H; bind_inv H.
by case: H => <-; rewrite -EY in Ets; split=> //; exists x, x0.
Qed.

End PrepareFacts.

(** ** [_b_orthonormalize] in exact arithmetic *)
Section ExactArithmeticFacts.

Import Order.POrderTheory GRing.Theory Num.Theory.
Local Open Scope ring_scope.

Variable F : realFieldType.
Variables n k : nat.
Implicit Types (V : 'M[F]_(n, k)) (G R : 'M[F]_k) (B : option 'M[F]_n).

Lemma cholesky_factor_unit (G R : 'M[F]_k) :
  symmetric_positive_definite G -> R^T *m R = G -> R \in unitmx.
Proof.
move=> [_ pos] RG; rewrite -unitmx_tr -row_free_unit -kermx_eq0.
apply/eqP/row_matrixP => i; rewrite row0.
set u := row i _.
have uR : u *m R^T = 0 by rewrite /u -row_mul mulmx_ker row0.
apply/eqP; apply: contraT => u0.
have xn0 : u^T != 0 by rewrite -trmx0 (inj_eq trmx_inj).
have := pos _ xn0.
by rewrite trmxK -RG !mulmxA uR !mul0mx mxE ltxx.
Qed.

Lemma gram_of_scaled (Bo : option 'M[F]_n) (V : 'M[F]_(n, k)) (R : 'M[F]_k) :
  R \in unitmx -> R^T *m R = V^T *m mx_apply Bo V ->
  (V *m invmx R)^T *m mx_apply Bo (V *m invmx R) = 1%:M.
Proof.
move=> Ru RG.
have -> : mx_apply Bo (V *m invmx R) = mx_apply Bo V *m invmx R.
  by case: Bo {RG} => [Bm|] //=; rewrite mulmxA.
rewrite trmx_mul -mulmxA [V^T *m _]mulmxA -RG -!mulmxA mulmxV //.
by rewrite mulmx1 -trmx_mul mulmxV // trmx1.
Qed.

(** C3. When the Gram matrix [V^T B V] is symmetric positive definite,
    [_b_orthonormalize] returns [V' = V R^-1], with [R] the upper-triangular
    Cholesky factor of the Gram matrix, and [V'^T (B V')] is exactly the
    identity; when it is not, the error raised by the Cholesky step is what
    the call raises. *)
Theorem b_orthonormalize_spec (chol : 'M[F]_k -> result 'M[F]_k) B V
    (BV : option 'M[F]_(n, k)) (retInvR : bool) :
  let G := V^T *m mx_apply B V in
  BV = None \/ BV = Some (mx_apply B V) ->
  cholesky_contract chol G ->
  (symmetric_positive_definite G ->
     exists R,
       [/\ upper_triangular R, R^T *m R = G,
           mx_b_orthonormalize chol (mx_operator B) V BV retInvR
           = Ok (V *m invmx R,
                 if B is Some _ then mx_apply B V *m invmx R else V,
                 if retInvR then Some (invmx R) else None)
         & (V *m invmx R)^T *m mx_apply B (V *m invmx R) = 1%:M]) /\
  (~ symmetric_positive_definite G ->
     mx_b_orthonormalize chol (mx_operator B) V BV retInvR
     = Raise (LinAlgError "matrix is not positive definite")).
Proof.
move=> G HBV [Hpos Hneg].
have run0 : mx_b_orthonormalize chol (mx_operator B) V BV retInvR
            = mx_b_orthonormalize chol (mx_operator B) V
                (Some (mx_apply B V)) retInvR.
  by case: HBV => -> //; case: (B).
split=> [spdG|nspdG]; rewrite run0 /mx_b_orthonormalize /_b_orthonormalize /=.
  have [R [cholR upR RG]] := Hpos spdG.
  have Ru : R \in unitmx := cholesky_factor_unit spdG RG.
  exists R; split=> //; last exact: gram_of_scaled.
  by rewrite -/G cholR /= /mx_inv Ru /=; case: (B).
by rewrite -/G (Hneg nspdG).
Qed.

End ExactArithmeticFacts.

(** The contract can be met: the scalar Cholesky factorisation meets it at
    every 1 x 1 matrix over a real closed field. *)
Section ScalarCholesky.

Import Order.POrderTheory GRing.Theory Num.Theory.
Local Open Scope ring_scope.

Variable F : rcfType.

Lemma scalar_cholesky_contract (G : 'M[F]_1) :
  cholesky_contract (@scalar_cholesky F) G.
Proof.
rewrite /scalar_cholesky; split=> [[_ pos]|nspd].
  have := pos 1%:M (oner_neq0 _).
  rewrite trmx1 mul1mx mulmx1 => G0; exists (Num.sqrt (G 0 0))%:M.
  rewrite G0; split=> //.
    by rewrite /upper_triangular tr_scalar_mx scalar_mx_is_trig.
  by rewrite tr_scalar_mx -scalar_mxM -expr2 sqr_sqrtr ?ltW // -mx11_scalar.
case: ifP => // G0; case: nspd; split=> [|x xn0].
  by rewrite [G]mx11_scalar tr_scalar_mx.
have a0 : x 0 0 != 0.
  by apply: contraNneq xn0 => e; apply/eqP/matrixP => i j; rewrite !ord1 e mxE.
have -> : x = (x 0 0)%:M by rewrite [LHS]mx11_scalar.
have -> : G = (G 0 0)%:M by rewrite [LHS]mx11_scalar.
rewrite tr_scalar_mx -!scalar_mxM mxE eqxx mulr1n.
by rewrite mulrAC -expr2 pmulr_lgt0 // exprn_even_gt0.
Qed.

End ScalarCholesky.

(** ** [_b_orthonormalize] on the 1 x 1 rational block (2) *)
Section ExactArithmeticAtTwo.

Import Order.POrderTheory GRing.Theory Num.Theory.
Local Open Scope ring_scope.

Lemma gram_of_2 :
  ((2%:R)%:M : 'M[rat]_1)^T *m mx_apply None ((2%:R)%:M : 'M[rat]_1)
  = (4%:R)%:M.
Proof. by rewrite /= tr_scalar_mx -scalar_mxM -natrM. Qed.

Lemma spd_4 : symmetric_positive_definite ((4%:R)%:M : 'M[rat]_1).
Proof.
split=> [|x xn0]; first by rewrite tr_scalar_mx.
have a0 : x 0 0 != 0.
  by apply: contraNneq xn0 => e; apply/eqP/matrixP => i j; rewrite !ord1 e mxE.
have -> : x = (x 0 0)%:M by rewrite [LHS]mx11_scalar.
rewrite tr_scalar_mx -!scalar_mxM mxE eqxx mulr1n.
by rewrite mulrAC -expr2 pmulr_lgt0 ?ltr0n // exprn_even_gt0.
Qed.

Lemma cholesky_of_4_contract :
  cholesky_contract cholesky_of_4
    (((2%:R)%:M : 'M[rat]_1)^T *m mx_apply None ((2%:R)%:M : 'M[rat]_1)).
Proof.
rewrite gram_of_2; split=> [_|] //; last by case; exact: spd_4.
exists (2%:R)%:M; split; first by rewrite /cholesky_of_4 eqxx.
  by rewrite /upper_triangular tr_scalar_mx scalar_mx_is_trig.
by rewrite tr_scalar_mx -scalar_mxM -natrM.
Qed.

Lemma b_orthonormalize_spec_witness :
  exists R : 'M[rat]_1,
    [/\ R^T *m R = (4%:R)%:M,
        mx_b_orthonormalize cholesky_of_4 (mx_operator None) (2%:R)%:M None
          false
        = Ok ((2%:R)%:M *m invmx R, (2%:R)%:M, None)
      & ((2%:R)%:M *m invmx R)^T *m ((2%:R)%:M *m invmx R) = 1%:M].
Proof.
have [H _] :=
  @b_orthonormalize_spec _ 1 1 cholesky_of_4 None (2%:R)%:M None false
    (or_introl erefl) cholesky_of_4_contract.
have spdG := spd_4; rewrite -gram_of_2 in spdG.
have [R [_ RG run orth]] := H spdG.
by exists R; split=> //; rewrite RG gram_of_2.
Defined.

End ExactArithmeticAtTwo.

(** ** The selection of the Ritz pairs *)

Lemma ritz_indices_largest (sizeX : nat) (w : seq float) :
  ritz_indices true sizeX w = rev (ritz_indices false sizeX w).
Proof. by []. Qed.

Lemma take_idx_rev (w : seq float) (ii : seq nat) :
  take_idx w (rev ii) = rev (take_idx w ii).
Proof. by rewrite /take_idx map_rev. Qed.

Lemma take_idx_argsort (w : seq float) :
  take_idx w (argsort w) = sort np_le w.
Proof.
rewrite /take_idx /argsort -[in RHS](mkseq_nth 0%float w) /mkseq.
by rewrite sort_map.
Qed.

Lemma take_idx_smallest (sizeX : nat) (w : seq float) :
  take_idx w (ritz_indices false sizeX w) = take sizeX (sort np_le w).
Proof.
rewrite /ritz_indices /= /take_idx map_take -/(take_idx _ _).
by rewrite take_idx_argsort.
Qed.

(** C1. In every pass of the main loop the new Ritz values are the
    eigenvalues of the small problem at the indices
    [np.argsort(_lambda)[:sizeX]], reversed when [largest] is set.  With
    [largest] unset these are the first [sizeX] eigenvalues of the ascending
    sort: the [sizeX] smallest, ascending.  With [largest] set they are the
    same [sizeX] smallest eigenvalues in descending order, not the [sizeX]
    largest: of the eigenvalues 1, 2, 3, 4 the code keeps 2, 1 where the two
    largest are 4, 3, and [lobpcg] on [diag(1, ..., 10)] with a block of two
    columns and [largest=True] returns two eigenvalues below 3. *)
Theorem ritz_selection_largest_keeps_smallest :
  [/\ forall (K : Numpy) env it v v',
        loop_body env it v = Ok (Next v') ->
        exists gramA gramB w E,
          eigh gramA (Some gramB) None = Ok (w, E) /\
          _lambda v' = take_idx w (ritz_indices (largest env) (sizeX env) w),
      forall sizeX w,
        take_idx w (ritz_indices false sizeX w) = take sizeX (sort np_le w) /\
        take_idx w (ritz_indices true sizeX w)
        = rev (take sizeX (sort np_le w)),
      take_idx four_eigenvalues (ritz_indices false 2 four_eigenvalues)
      = [:: 1%float; 2%float],
      take_idx four_eigenvalues (ritz_indices true 2 four_eigenvalues)
      = [:: 2%float; 1%float] /\
      take 2 (rev (sort np_le four_eigenvalues)) = [:: 4%float; 3%float]
    & let w := eigenvalues_of
                 (lobpcg (K := Reference.kernel) (Some (Reference.diag_1_to 10))
                    (Reference.start_block 10 2) None None None
                    (Some 1e-4%float) 20 true false false) in
      (size w == 2) && all (fun l => PrimFloat.ltb l 3%float) w].
Proof.
split.
- move=> K env it v v' /loop_body_inv [R [rn [mask [_ _]]]].
  by case=> _ [_ [_ [_ [_]]]].
- move=> sizeX w; split; first exact: take_idx_smallest.
  by rewrite ritz_indices_largest take_idx_rev take_idx_smallest.
- by vm_compute.
- by split; vm_compute.
- by vm_compute.
Qed.

(** ** The default tolerance *)

(** C5. With no tolerance given, the threshold the loop compares the residual
    norms with is [np.sqrt(1e-15) * n].  That is not the square root of the
    machine epsilon times [n]: for [n = 5] the code uses 1.58e-7, where the
    binary64 epsilon gives 7.45e-8, and the two differ for every [n] from 1
    to 100, with the binary32 epsilon as well. *)
Theorem default_tolerance_is_not_sqrt_eps :
  [/\ forall (K : Numpy) A X B M Y maxiter lg env v0,
        lobpcg_prepare A X B M Y None maxiter lg = Ok (Iterate env v0) ->
        residualTolerance env = default_tolerance (nth 0 (shape X) 0),
      forall (K : Numpy) env it v c,
        loop_body env it v = Ok c ->
        exists R rn mask,
          residuals v = Ok (R, rn) /\
          np_band (activeMask v)
                  (above_tolerance rn (residualTolerance env)) = Ok mask,
      tolerance_of
        (lobpcg_prepare (K := Reference.kernel) (Some (Reference.diag_1_to 5))
           (Reference.start_block 5 1) None None None None 20 false)
      = Some (PrimFloat.mul (PrimFloat.sqrt 1e-15%float) 5%float),
      all (fun n => PrimFloat.ltb
                      (PrimFloat.mul (PrimFloat.sqrt eps64) (float_of_nat n))
                      (default_tolerance n))
          (iota 1 100)
    & all (fun n => PrimFloat.ltb
                      (default_tolerance n)
                      (PrimFloat.mul (PrimFloat.sqrt eps32) (float_of_nat n)))
          (iota 1 100)].
Proof.
split.
- by move=> K A X B M Y maxiter lg env v0 /lobpcg_prepare_Iterate [_ _ ->].
- move=> K env it v c /loop_body_inv [R [rn [mask [HR Hm _]]]].
  by exists R, rn, mask.
- by vm_compute.
- by vm_compute.
- by vm_compute.
Qed.

(** ** Validation and the dense fallback *)
Section ControlFlow.

Context {K : Numpy}.
Variables (A B M : option opinput) (X : ndarray) (tol : option float).
Variables (maxiter : Z) (lg retLambdaHistory retResidualNormsHistory : bool).

Lemma too_smallP (n sizeY k : nat) :
  (Z.of_nat n - Z.of_nat sizeY < 5 * Z.of_nat k)%coqZ <-> too_small n sizeY k.
Proof. by rewrite /too_small; split=> /Z.ltb_lt. Qed.

(** C2. A call with a well-formed block [X] (n rows, k <= n columns), no
    constraints and [n - 0 < 5 k] builds the three operators and returns
    what the dense eigensolver returns for [A] and [B] applied to the
    identity, asked for the ranks [n - k .. n - 1] when [largest] is set and
    [0 .. k - 1] otherwise; nothing else is computed. *)
Theorem dense_fallback_delegates (n k : nat) :
  shape X = [:: n; k] -> k <= n ->
  (Z.of_nat n - 0 < 5 * Z.of_nat k)%coqZ ->
  lobpcg A X B M None tol maxiter lg retLambdaHistory retResidualNormsHistory
  = (opA <- _makeOperator A (n, n) ;;
     opB <- _makeOperator B (n, n) ;;
     opM <- _makeOperator M (n, n) ;;
     A_dense <- matmat opA (np_eye n) ;;
     B_dense <- matmat opB (np_eye n) ;;
     '(w, v) <- eigh A_dense (Some B_dense) (Some (dense_range n k lg)) ;;
     Ok [:: Vec w; Arr v]).
Proof.
move=> HX kn /(too_smallP n 0 k) small.
rewrite /lobpcg /lobpcg_prepare /= HX /= ltnNge kn /=.
case: (_makeOperator A _) => [opA|e] //=.
case: (_makeOperator B _) => [opB|e] //=.
case: (_makeOperator M _) => [opM|e] //=.
rewrite small /dense_eigensolver -/(dense_range n k lg).
case: (matmat opA _) => [A_dense|e] //=.
case: (matmat opB _) => [B_dense|e] //=.
by case: (eigh _ _ _) => [[w v]|e].
Qed.

(** C7. When the dense-fallback condition holds and constraints are given,
    the call raises: for a well-formed block [X] the error is
    NotImplementedError, raised once the three operators are built, and for
    any other block it is the error of the validation. *)
Theorem dense_fallback_rejects_constraints (y : ndarray) (n k : nat) :
  shape X = [:: n; k] -> 1 < size (shape y) ->
  (Z.of_nat n - Z.of_nat (nth 0%N (shape y) 1%N) < 5 * Z.of_nat k)%coqZ ->
  raises (lobpcg A X B M (Some y) tol maxiter lg
            retLambdaHistory retResidualNormsHistory) /\
  (k <= n ->
   lobpcg A X B M (Some y) tol maxiter lg
     retLambdaHistory retResidualNormsHistory
   = (opA <- _makeOperator A (n, n) ;;
      opB <- _makeOperator B (n, n) ;;
      opM <- _makeOperator M (n, n) ;;
      Raise constraints_error)).
Proof.
move=> HX Hy /too_smallP small.
rewrite /lobpcg /lobpcg_prepare /= Hy /= HX /=.
case: (ltnP n k) => [_|_] /=; first by [].
case: (_makeOperator A _) => [opA|e] //=.
case: (_makeOperator B _) => [opB|e] //=.
case: (_makeOperator M _) => [opM|e] //=.
by rewrite small.
Qed.

(** C9. A call that returns through the dense fallback returns the pair
    (eigenvalues, eigenvectors) whatever the two history flags are; a call
    that returns from the iterative path returns that pair followed by the
    eigenvalue history when [retLambdaHistory] is set and by the residual
    norm history when [retResidualNormsHistory] is set. *)
Theorem history_flags_on_each_path (Y : option ndarray) (n k sizeY : nat)
    (r : pytuple) :
  shape X = [:: n; k] -> sizeY_of Y = Ok sizeY ->
  lobpcg A X B M Y tol maxiter lg retLambdaHistory retResidualNormsHistory
  = Ok r ->
  if too_small n sizeY k
  then [/\ Y = None, exists w v, r = [:: Vec w; Arr v]
         & forall rl rr, lobpcg A X B M Y tol maxiter lg rl rr = Ok r]
  else exists v : loop_vars,
         r = [:: Vec (_lambda v); Arr (blockVectorX v)]
             ++ (if retLambdaHistory then [:: Hist (lambdaHistory v)]
                 else [::])
             ++ (if retResidualNormsHistory
                 then [:: Hist (residualNormsHistory v)] else [::]).
Proof.
move=> HX HY; rewrite /lobpcg => H.
apply bind_Ok in H; case: H => [[r'|env v0] Hp H].
  case: H => <-.
  have [Y0 small [opA [opB Hd]]] := lobpcg_prepare_Return Hp.
  move: small HY; rewrite HX Y0 /= => small [<-]; rewrite small.
  split=> //; last by move=> rl rr; rewrite -Y0 Hp.
  move: Hd; rewrite /dense_eigensolver => Hd; bind_inv Hd.
  by case: Hd => <-; eexists _, _.
have [[sizeY' HY' small] _ _ _] := lobpcg_prepare_Iterate Hp.
move: small HY'; rewrite HX HY /= => small [E]; rewrite E small.
apply bind_Ok in H; case: H => [v Hv H].
rewrite /lobpcg_finish in H; bind_inv H.
case: H => <-; exists v; rewrite /format_result.
by case: retLambdaHistory; case: retResidualNormsHistory.
Qed.

(** C6, as the code has it.  With [Y] absent or of rank 2 at least, a block
    [X] that is not of rank 2, or that has more columns than rows, is
    rejected by the validation, whatever the operators are.  A block with no
    column is not: the operators are built for it, an error of their
    construction is what the call raises, and with the three operators built
    and no constraints the block goes to [_b_orthonormalize], whose error is
    what the call raises. *)
Theorem invalid_X_rejected_before_operators (Y : option ndarray)
    (sizeY : nat) :
  sizeY_of Y = Ok sizeY ->
  [/\ size (shape X) != 2 ->
      lobpcg A X B M Y tol maxiter lg retLambdaHistory retResidualNormsHistory
      = Raise rank_error,
      forall n k, shape X = [:: n; k] -> n < k ->
      lobpcg A X B M Y tol maxiter lg retLambdaHistory retResidualNormsHistory
      = Raise column_error,
      forall n e, shape X = [:: n; 0] -> _makeOperator A (n, n) = Raise e ->
      lobpcg A X B M Y tol maxiter lg retLambdaHistory retResidualNormsHistory
      = Raise e
    & forall n opA opB opM e, shape X = [:: n; 0] -> Y = None ->
      _makeOperator A (n, n) = Ok opA -> _makeOperator B (n, n) = Ok opB ->
      _makeOperator M (n, n) = Ok opM ->
      b_orthonormalize_nd (Some (matmat opB)) X None false = Raise e ->
      lobpcg A X B M Y tol maxiter lg retLambdaHistory retResidualNormsHistory
      = Raise e].
Proof.
move=> HY; split.
- by rewrite /lobpcg /lobpcg_prepare HY /= => ->.
- by move=> n k; rewrite /lobpcg /lobpcg_prepare HY /= => -> /= ->.
- by move=> n e; rewrite /lobpcg /lobpcg_prepare HY /= => -> /= ->.
- move=> n opA opB opM e HX Y0 HA HB HM Horth.
  have big : too_small n 0 0 = false by rewrite /too_small; apply/Z.ltb_ge; lia.
  by rewrite /lobpcg /lobpcg_prepare Y0 /= HX /= HA HB HM /= big Horth.
Qed.

End ControlFlow.

(** ** The active mask *)

Lemma mask_step_refl (m : seq bool) : mask_step m m.
Proof. by left. Qed.

Lemma mask_step_trans (m1 m2 m3 : seq bool) :
  mask_step m1 m2 -> mask_step m2 m3 -> mask_step m1 m3.
Proof.
case=> [[s12 le12]|[s1 f12]] [[s23 le23]|[s2 f23]].
- by left; split=> [|i /le23 /le12]; rewrite ?s23.
- right; split=> [|m0 i]; first by rewrite -s12.
  by apply: f23; apply/negbTE/negP => /le12; rewrite m0.
- right; split=> // m0 i; apply/negbTE/negP => /le23.
  by rewrite f12.
- by right; split=> // m0 i; apply: f23; apply: f12.
Qed.

Lemma mask_step_deflated (m m' : seq bool) (i : nat) :
  mask_step m m' -> deflated m i -> ~~ active m' i.
Proof.
rewrite /deflated /active => -[[_ le]|[s1 f]] /andP [im mi].
  by apply/negP => /le; rewrite (negbTE mi).
by move: im mi; rewrite s1 ltnS leqn0 => /eqP -> /negbTE /f ->.
Qed.

Lemma np_band_step (m ii m' : seq bool) :
  np_band m ii = Ok m' -> mask_step m m'.
Proof.
rewrite /np_band; case: ifP => [/eqP sz|_].
  case=> <-; left; rewrite size_map size_zip sz minnn; split=> // i.
  case: (ltnP i (size ii)) => [lt|ge].
    rewrite (nth_map (false, false)) ?size_zip ?sz ?minnn //.
    by rewrite nth_zip //= => /andP [].
  by rewrite nth_default // size_map size_zip sz minnn.
case: ifP => [/eqP sz|_].
  case=> <-; right; split=> // m0 i.
  case: m sz m0 => [|x [|]] //= _ ->.
  case: (ltnP i (size ii)) => [lt|ge]; first by rewrite (nth_map false).
  by rewrite nth_default // size_map.
case: ifP => // _ [<-]; left; rewrite size_map; split=> // i.
case: (ltnP i (size m)) => [lt|ge].
  by rewrite (nth_map false) // => /andP [].
by rewrite nth_default // size_map.
Qed.

Section LoopInvariants.

Context {K : Numpy}.
Variable env : loop_env.

Lemma loop_body_mask it v c :
  loop_body env it v = Ok c ->
  exists R rn,
    residuals v = Ok (R, rn) /\
    np_band (activeMask v) (above_tolerance rn (residualTolerance env))
    = Ok (activeMask (vars_of c)).
Proof.
move=> /loop_body_inv [R [rn [mask [HR Hm Hc]]]]; exists R, rn; split=> //.
by case: c Hc => v' /= [_ [_ [->]]].
Qed.

Lemma loop_body_histories it v c :
  loop_body env it v = Ok c ->
  exists R rn,
    [/\ residuals v = Ok (R, rn),
        residualNormsHistory (vars_of c)
        = rcons (residualNormsHistory v) rn
      & lambdaHistory (vars_of c)
        = if c is Next v' then rcons (lambdaHistory v) (_lambda v')
          else lambdaHistory v].
Proof.
move=> /loop_body_inv [R [rn [mask [HR Hm Hc]]]]; exists R, rn.
by case: c Hc => v' /= [_ [_ [_ [-> [->]]]]].
Qed.

Lemma main_loop_mask passes it v v' :
  main_loop env passes it v = Ok v' ->
  mask_step (activeMask v) (activeMask v').
Proof.
elim: passes it v => [|passes IH] it v /=; first by case=> <-; left.
move=> H0; have [c Hc H] := bind_Ok H0.
have [R [rn [_ /np_band_step step]]] := loop_body_mask Hc.
case: c H step {Hc} => v'' /= => [[<-]|/IH] //.
by move=> s2 s1; apply: mask_step_trans s1 s2.
Qed.

Lemma main_loop_prefix t t' it v vt vt' :
  t <= t' ->
  main_loop env t it v = Ok vt -> main_loop env t' it v = Ok vt' ->
  mask_step (activeMask vt) (activeMask vt').
Proof.
elim: t t' it v => [|t IH] [|t'] it v //=.
- by move=> _ [<-] [<-]; left.
- by move=> _ [<-] H; apply: (@main_loop_mask t'.+1 it).
- rewrite ltnS => tt' H0; have [c -> /=] := bind_Ok H0.
  by case: c => v'' => [[<-] [<-]|]; [left | apply: IH].
Qed.

Lemma main_loop_histories passes it v v' :
  main_loop env passes it v = Ok v' -> failureFlag v = true ->
  exists lh rh,
    [/\ lambdaHistory v' = lambdaHistory v ++ lh,
        residualNormsHistory v' = residualNormsHistory v ++ rh
      & if failureFlag v' then size lh = passes /\ size rh = passes
        else size rh = (size lh).+1 /\ size lh < passes].
Proof.
elim: passes it v => [|passes IH] it v /=.
  by case=> <- ->; exists [::], [::]; rewrite !cats0.
move=> H0 flag; have [c Hc H] := bind_Ok H0.
have [R [rn [mask [_ _ Hinv]]]] := loop_body_inv Hc.
case: c H Hinv {Hc} => v'' /=.
  case=> <- [_ [-> [_ [-> [-> _]]]]].
  by exists [::], [:: rn]; rewrite cats0 cats1.
move=> H [_ [flag'' [_ [rh'' [lh'' _]]]]].
have [|lh [rh [-> -> sizes]]] := IH _ _ H; first by rewrite flag''.
exists (_lambda v'' :: lh), (rn :: rh).
rewrite lh'' rh'' -!cats1 -!catA /=; split=> //.
by case: (failureFlag v') sizes => -[e1 e2] /=; rewrite ?e1 ?e2.
Qed.

Lemma main_loop_not_converged passes it v v' :
  main_loop env passes it v = Ok v' -> failureFlag v' = true -> 0 < passes ->
  count id (activeMask v') != 0.
Proof.
elim: passes it v => [|passes IH] it v //= H0 flag _.
have [c Hc H] := bind_Ok H0; move=> {H0}.
have [R [rn [mask [_ _ Hinv]]]] := loop_body_inv Hc.
case: c H Hinv {Hc} => v'' /=.
  by case=> E [_ [flag'' _]]; rewrite -E flag'' in flag.
case: passes IH => [|passes] IH H [active'' [_ [mask'' _]]].
  by case: H => <-; rewrite mask''.
exact: IH H flag isT.
Qed.

End LoopInvariants.

(** ** The claims on the iterative path *)
Section IterativePath.

Context {K : Numpy}.
Variables (A B M : option opinput) (X : ndarray) (Y : option ndarray).
Variables (tol : option float) (maxiter : Z) (lg : bool).
Variables (env : loop_env) (v0 : loop_vars).

Hypothesis prepared_ok :
  lobpcg_prepare A X B M Y tol maxiter lg = Ok (Iterate env v0).

(** C4. The active mask starts all true; a pass of the loop replaces it by
    [activeMask & (residualNorms > residualTolerance)] and by nothing else;
    so a column that is deflated after [t] passes is not active after
    [t' >= t] passes, whatever its residual norm is by then. *)
Theorem active_mask_never_reactivates :
  [/\ activeMask v0 = nseq (sizeX env) true,
      forall it v c,
        loop_body env it v = Ok c ->
        exists R rn,
          residuals v = Ok (R, rn) /\
          np_band (activeMask v) (above_tolerance rn (residualTolerance env))
          = Ok (activeMask (vars_of c))
    & forall t t' vt vt' i,
        t <= t' ->
        main_loop env t 0 v0 = Ok vt -> main_loop env t' 0 v0 = Ok vt' ->
        deflated (activeMask vt) i -> ~~ active (activeMask vt') i].
Proof.
have [_ [_ -> _ _] _ [_ -> _ _]] := lobpcg_prepare_Iterate prepared_ok.
split=> // [it v c|t t' vt vt' i tt' Ht Ht']; first exact: loop_body_mask.
exact/mask_step_deflated/(main_loop_prefix tt' Ht Ht').
Qed.

(** C8. A run whose loop ends because [maxIterations] passes were made, the
    convergence test never having emptied the active mask, returns normally:
    once the final residual norms are computed the call returns the current
    eigenvalues and eigenvectors, followed by the eigenvalue history and by
    the history of residual norms when they are asked for.  The histories
    are complete: one entry of residual norms for each pass, and the initial
    eigenvalues followed by those of each pass. *)
Theorem max_iterations_is_not_an_error (rl rr : bool) (v : loop_vars)
    (R : ndarray) (rn : seq float) :
  main_loop env (Z.to_nat (maxIterations env)) 0 v0 = Ok v ->
  failureFlag v = true ->
  residuals v = Ok (R, rn) ->
  [/\ lobpcg A X B M Y tol maxiter lg rl rr
      = Ok ([:: Vec (_lambda v); Arr (blockVectorX v)]
            ++ (if rl then [:: Hist (lambdaHistory v)] else [::])
            ++ (if rr then [:: Hist (residualNormsHistory v)] else [::])),
      size (residualNormsHistory v) = Z.to_nat (maxIterations env),
      size (lambdaHistory v) = (Z.to_nat (maxIterations env)).+1
    & 0 < Z.to_nat (maxIterations env) -> count id (activeMask v) != 0].
Proof.
move=> Hloop flag Hres.
have [_ _ _ [flag0 _ lh0 rh0]] := lobpcg_prepare_Iterate prepared_ok.
have [lh [rh [Elh Erh]]] := main_loop_histories Hloop flag0.
rewrite flag => -[slh srh]; split.
- rewrite /lobpcg prepared_ok /= Hloop /= /lobpcg_finish Hres /=.
  by rewrite /format_result; case: rl; case: rr.
- by rewrite Erh rh0.
- by rewrite Elh lh0 /= slh.
- exact: main_loop_not_converged Hloop flag.
Qed.

(** C10. [lambdaHistory] starts with the initial Ritz values and gets one
    entry at the end of each completed pass; [residualNormsHistory] starts
    empty and gets one entry in each pass entered; the residual norms
    computed after the loop are not appended.  A loop that made all its
    passes leaves [lambdaHistory] one entry longer than
    [residualNormsHistory]; a loop left by the convergence test leaves them
    of equal length. *)
Theorem history_bookkeeping (v : loop_vars) :
  main_loop env (Z.to_nat (maxIterations env)) 0 v0 = Ok v ->
  [/\ forall it u c,
        loop_body env it u = Ok c ->
        exists R rn,
          [/\ residuals u = Ok (R, rn),
              residualNormsHistory (vars_of c)
              = rcons (residualNormsHistory u) rn
            & lambdaHistory (vars_of c)
              = if c is Next u' then rcons (lambdaHistory u) (_lambda u')
                else lambdaHistory u],
      exists lh,
        lambdaHistory v = _lambda v0 :: lh /\
        if failureFlag v
        then size lh = Z.to_nat (maxIterations env) /\
             size (residualNormsHistory v) = Z.to_nat (maxIterations env)
        else size (residualNormsHistory v) = (size lh).+1 /\
             size lh < Z.to_nat (maxIterations env)
    & forall R rn,
        residuals v = Ok (R, rn) ->
        lobpcg A X B M Y tol maxiter lg true true
        = Ok [:: Vec (_lambda v); Arr (blockVectorX v);
                 Hist (lambdaHistory v); Hist (residualNormsHistory v)]].
Proof.
move=> Hloop; split=> [it u c||R rn Hres]; first exact: loop_body_histories.
- have [_ _ _ [flag0 _ lh0 rh0]] := lobpcg_prepare_Iterate prepared_ok.
  have [lh [rh [-> ->]]] := main_loop_histories Hloop flag0.
  by rewrite lh0 rh0 /= => sizes; exists lh.
- by rewrite /lobpcg prepared_ok /= Hloop /= /lobpcg_finish Hres.
Qed.

End IterativePath.

(** ** The statements at concrete inputs

    [diag(1, ..., 10)] with blocks of two and of five columns, on the
    reference implementation of the interface. *)

Ltac evaluated t :=
  let nf := eval vm_compute in t in
  let E := fresh "E" in
  have E : t = nf by vm_compute; reflexivity.

Section Concrete.

Import Reference.

Let A10 : option array := Some (diag_1_to 10).

Lemma dense_fallback_delegates_witness :
  lobpcg (K := kernel) A10 (start_block 10 5) None None None None 20 true
    true true
  = (opA <- _makeOperator A10 (10, 10) ;;
     opB <- _makeOperator None (10, 10) ;;
     opM <- _makeOperator None (10, 10) ;;
     A_dense <- matmat opA (np_eye 10) ;;
     B_dense <- matmat opB (np_eye 10) ;;
     '(w, v) <- eigh A_dense (Some B_dense) (Some (5, 9)%coqZ) ;;
     Ok [:: Vec w; Arr v]).
Proof.
have H1 : @shape kernel (start_block 10 5) = [:: 10; 5] by [].
have H2 : (Z.of_nat 10 - 0 < 5 * Z.of_nat 5)%coqZ by [].
exact (@dense_fallback_delegates kernel A10 None None (start_block 10 5)
         None 20 true true true 10 5 H1 isT H2).
Defined.

Lemma dense_fallback_rejects_constraints_witness :
  lobpcg (K := kernel) A10 (start_block 10 5) None None
    (Some (start_block 10 1)) None 20 true false false
  = Raise constraints_error.
Proof.
have H1 : @shape kernel (start_block 10 5) = [:: 10; 5] by [].
have H2 : 1 < size (@shape kernel (start_block 10 1)) by [].
have H3 : (Z.of_nat 10
           - Z.of_nat (nth 0%N (@shape kernel (start_block 10 1)) 1%N)
           < 5 * Z.of_nat 5)%coqZ by [].
have [_ H] :=
  @dense_fallback_rejects_constraints kernel A10 None None (start_block 10 5)
    None 20 true false false (start_block 10 1) 10 5 H1 H2 H3.
exact (H isT).
Defined.

Lemma history_flags_on_each_path_witness :
  (exists w v,
     lobpcg (K := kernel) A10 (start_block 10 5) None None None None 20 true
       true true
     = Ok [:: Vec w; Arr v]) /\
  (exists v : loop_vars,
     lobpcg (K := kernel) A10 (start_block 10 2) None None None
       (Some 1e-4%float) 1 false true true
     = Ok [:: Vec (_lambda v); Arr (blockVectorX v);
              Hist (lambdaHistory v); Hist (residualNormsHistory v)]).
Proof.
have HY : sizeY_of (K := kernel) None = Ok 0 by [].
split.
- have H1 : @shape kernel (start_block 10 5) = [:: 10; 5] by [].
  evaluated (lobpcg (K := kernel) A10 (start_block 10 5) None None None None
               20 true true true).
  have [_ [w [v Er]] _] :=
    @history_flags_on_each_path kernel A10 None None (start_block 10 5) None
      20 true true true None 10 5 0 _ H1 HY E.
  exists w, v; rewrite -Er; exact E.
- have H1 : @shape kernel (start_block 10 2) = [:: 10; 2] by [].
  evaluated (lobpcg (K := kernel) A10 (start_block 10 2) None None None
               (Some 1e-4%float) 1 false true true).
  have [v Er] :=
    @history_flags_on_each_path kernel A10 None None (start_block 10 2)
      (Some 1e-4%float) 1 false true true None 10 2 0 _ H1 HY E.
  exists v; rewrite E Er; reflexivity.
Defined.

Lemma invalid_X_rejected_before_operators_witness :
  [/\ lobpcg (K := kernel) A10 (Array1 [:: 1%float; 2%float]) None None None
        None 20 true false false = Raise rank_error,
      lobpcg (K := kernel) A10 (start_block 1 2) None None None None 20 true
        false false = Raise column_error,
      lobpcg (K := kernel) (Some (diag_1_to 3)) (Array2 10 0 (nseq 10 [::]))
        None None None None 20 true false false
      = Raise (ValueError "operator has invalid shape")
    & exists2 e,
        inv (Numpy := kernel) (Array2 0 0 [::]) = Raise e
        & lobpcg (K := kernel) A10 (Array2 10 0 (nseq 10 [::])) None None None
            None 20 true false false = Raise e].
Proof.
have H0 : sizeY_of (K := kernel) None = Ok 0 by [].
split.
- have [H _ _ _] :=
    @invalid_X_rejected_before_operators kernel A10 None None
      (Array1 [:: 1%float; 2%float]) None 20 true false false None 0 H0.
  exact (H isT).
- have [_ H _ _] :=
    @invalid_X_rejected_before_operators kernel A10 None None
      (start_block 1 2) None 20 true false false None 0 H0.
  exact (H 1 2 erefl isT).
- have [_ _ H _] :=
    @invalid_X_rejected_before_operators kernel (Some (diag_1_to 3)) None None
      (Array2 10 0 (nseq 10 [::])) None 20 true false false None 0 H0.
  exact (H 10 _ erefl erefl).
- have [_ _ _ H] :=
    @invalid_X_rejected_before_operators kernel A10 None None
      (Array2 10 0 (nseq 10 [::])) None 20 true false false None 0 H0.
  eexists; first by vm_compute; reflexivity.
  exact (H 10 _ _ _ _ erefl erefl erefl erefl erefl erefl).
Defined.

(** C6 fails on a block with no column: [lobpcg] goes on to build the
    operators, so that an operator of the wrong shape is what is reported;
    with operators of the right shape the block is rejected by none of the
    two tests of the validation either, and the error is the one [inv]
    raises on the Gram matrix of order 0. *)
Lemma empty_block_is_not_rejected :
  [/\ @shape kernel (Array2 5 0 (nseq 5 [::])) = [:: 5; 0],
      lobpcg (K := kernel) (Some (diag_1_to 3)) (Array2 5 0 (nseq 5 [::]))
        None None None None 20 true false false
      = Raise (ValueError "operator has invalid shape"),
      is_InvalidInput
        (lobpcg (K := kernel) (Some (diag_1_to 3)) (Array2 5 0 (nseq 5 [::]))
           None None None None 20 true false false) = false,
      is_InvalidInput
        (lobpcg (K := kernel) (Some (diag_1_to 5)) (Array2 5 0 (nseq 5 [::]))
           None None None None 20 true false false) = false
    & exists2 e,
        inv (Numpy := kernel) (Array2 0 0 [::]) = Raise e
        & lobpcg (K := kernel) (Some (diag_1_to 5)) (Array2 5 0 (nseq 5 [::]))
            None None None None 20 true false false = Raise e].
Proof.
split; try by vm_compute.
by eexists; vm_compute; reflexivity.
Qed.

Lemma active_mask_never_reactivates_witness :
  exists env v0 vt vt',
    [/\ lobpcg_prepare (K := kernel) A10 (start_block 10 2) None None None
          (Some 0.02%float) 20 false = Ok (Iterate env v0),
        main_loop env 2 0 v0 = Ok vt /\ main_loop env 3 0 v0 = Ok vt',
        activeMask v0 = [:: true; true] /\ activeMask vt = [:: true; false],
        deflated (activeMask vt) 1
      & ~~ active (activeMask vt') 1].
Proof.
evaluated (lobpcg_prepare (K := kernel) A10 (start_block 10 2) None None None
             (Some 0.02%float) 20 false).
match type of E with _ = Ok (Iterate ?env ?v0) =>
  evaluated (main_loop env 2 0 v0); evaluated (main_loop env 3 0 v0)
end.
have [H0 _ H] := active_mask_never_reactivates E.
eexists _, _, _, _; split; first exact E.
- split; [exact E0 | exact E1].
- split; [exact H0 | reflexivity].
- reflexivity.
- exact (H 2 3 _ _ 1 isT E0 E1 isT).
Defined.

Lemma max_iterations_is_not_an_error_witness :
  exists v : loop_vars,
    [/\ lobpcg (K := kernel) A10 (start_block 10 2) None None None
          (Some 1e-4%float) 1 false true true
        = Ok [:: Vec (_lambda v); Arr (blockVectorX v);
                 Hist (lambdaHistory v); Hist (residualNormsHistory v)],
        failureFlag v = true,
        size (residualNormsHistory v) = 1 /\ size (lambdaHistory v) = 2
      & count id (activeMask v) != 0].
Proof.
evaluated (lobpcg_prepare (K := kernel) A10 (start_block 10 2) None None None
             (Some 1e-4%float) 1 false).
match type of E with _ = Ok (Iterate ?env ?v0) =>
  evaluated (main_loop env (Z.to_nat (maxIterations env)) 0 v0)
end.
match type of E0 with _ = Ok ?v => evaluated (residuals v) end.
have [Hr Hrh Hlh Hc] := max_iterations_is_not_an_error E true true E0 erefl E1.
eexists; split; first exact Hr.
- reflexivity.
- split; [exact Hrh | exact Hlh].
- exact (Hc isT).
Defined.

Lemma history_bookkeeping_witness :
  exists v : loop_vars,
    lobpcg (K := kernel) A10 (start_block 10 2) None None None
      (Some 1e-4%float) 2 false true true
    = Ok [:: Vec (_lambda v); Arr (blockVectorX v);
             Hist (lambdaHistory v); Hist (residualNormsHistory v)] /\
    size (lambdaHistory v) = 3 /\ size (residualNormsHistory v) = 2.
Proof.
evaluated (lobpcg_prepare (K := kernel) A10 (start_block 10 2) None None None
             (Some 1e-4%float) 2 false).
match type of E with _ = Ok (Iterate ?env ?v0) =>
  evaluated (main_loop env (Z.to_nat (maxIterations env)) 0 v0)
end.
match type of E0 with _ = Ok ?v => evaluated (residuals v) end.
have [_ _ Hr] := history_bookkeeping E E0.
eexists; split; first exact (Hr _ _ E1).
vm_compute; split; reflexivity.
Defined.

End Concrete.

(** ** More of what the code before the loop and a pass establish *)
Section MoreFacts.

Context {K : Numpy}.

Lemma makeOperator_Ok inp s op :
  _makeOperator inp s = Ok op -> op_shape op = s.
Proof.
rewrite /_makeOperator => H; have [op' _] := bind_Ok H.
by case: eqP => // E [<-].
Qed.

Lemma size_ritz_values lg k (w : seq float) :
  size (take_idx w (ritz_indices lg k w)) = minn k (size w).
Proof.
rewrite /take_idx /ritz_indices size_map; case: lg; rewrite ?size_rev;
  by rewrite size_take size_sort size_iota /minn.
Qed.

Lemma lobpcg_prepare_setup A X B M Y tol maxiter lg env v0 :
  lobpcg_prepare A X B M Y tol maxiter lg = Ok (Iterate env v0) ->
  let n := nth 0 (shape X) 0 in
  let k := nth 0 (shape X) 1 in
  [/\ size (shape X) = 2 /\ k <= n,
      [/\ _makeOperator A (n, n) = Ok (A_op env),
          _makeOperator B (n, n) = Ok (B_op env)
        & _makeOperator M (n, n) = Ok (M_op env)],
      isSome (constraints env) = isSome Y,
      [/\ ident0 env = np_eye k, ident v0 = np_eye k
        & previousBlockSize v0 = k]
    & exists gramXAX w E,
        eigh gramXAX None None = Ok (w, E) /\
        _lambda v0 = take_idx w (ritz_indices lg k w)].
Proof.
rewrite /lobpcg_prepare => H.
apply bind_Ok in H; case: H => [sizeY EY H].
move: H; case: eqP => //= sz2; case: ltnP => // kn H.
bind_inv H.
move: H; case Ets: too_small.
  by case: (Y) => [y|] // H; bind_inv H.
move=> H; bind_inv H.
case: H => <- <- /=; split=> //.
  by move: E2; case: (Y) => [y|] /= H; [bind_inv H; case: H => <- | case: H => <-].
by eexists _, _, _; split; first exact: E8.
Qed.

Lemma loop_body_blocksize env it v c :
  loop_body env it v = Ok c ->
  previousBlockSize (vars_of c) = count id (activeMask (vars_of c)) /\
  ident (vars_of c)
  = if count id (activeMask (vars_of c)) != previousBlockSize v
    then np_eye (count id (activeMask (vars_of c))) else ident v.
Proof.
rewrite /loop_body => H.
apply bind_Ok in H; case: H => [[R rn] Eres H]; cbv beta iota zeta in H.
apply bind_Ok in H; case: H => [mask Emask H]; cbv beta zeta in H.
apply bind_Ok in H; case: H => [idn Eidn H].
have pbs : (if count id mask != previousBlockSize v then count id mask
            else previousBlockSize v) = count id mask.
  by case: eqP.
have Eid : idn = if count id mask != previousBlockSize v
                 then np_eye (count id mask) else ident v.
  move: Eidn; case: ifP => _ H'; last by case: H'.
  by apply bind_Ok in H'; case: H' => [d _ [<-]].
move: H; case: ifP => [_|_] H; first by case: H => <- /=.
by bind_inv H; case: H => <- /=.
Qed.

Lemma loop_body_directions env it v v' :
  loop_body env it v = Ok (Next v') ->
  [/\ isSome (blockVectorP v'), isSome (blockVectorAP v')
    & isSome (blockVectorBP v')].
Proof.
rewrite /loop_body => H.
apply bind_Ok in H; case: H => [[R rn] Eres H]; cbv beta iota zeta in H.
apply bind_Ok in H; case: H => [mask Emask H]; cbv beta zeta in H.
apply bind_Ok in H; case: H => [idn Eidn H].
move: H; case: ifP => [_|_] H //.
by bind_inv H; case: H => <- /=.
Qed.

End MoreFacts.

Section MoreLoopInvariants.

Context {K : Numpy}.
Variable env : loop_env.

Lemma loop_body_block_size it v c :
  loop_body env it v = Ok c ->
  block_size_invariant v -> block_size_invariant (vars_of c).
Proof.
move=> /loop_body_blocksize [pbs' id'] [pbs idv]; split=> //.
by rewrite id'; case: eqP => // e; rewrite e idv pbs.
Qed.

Lemma main_loop_block_size passes it v v' :
  main_loop env passes it v = Ok v' ->
  block_size_invariant v -> block_size_invariant v'.
Proof.
elim: passes it v => [|passes IH] it v /=; first by case=> <-.
move=> H0 inv; have [c Hc H] := bind_Ok H0.
have := loop_body_block_size Hc inv.
by case: c H {Hc} => v'' /= => [[<-]|/IH].
Qed.

Lemma loop_body_lambda it v c :
  loop_body env it v = Ok c ->
  lambda_invariant env v -> lambda_invariant env (vars_of c).
Proof.
move=> /loop_body_inv [R [rn [mask [_ _ Hc]]]] [lam ne sz].
rewrite /lambda_invariant.
case: c Hc => v' /= => [[_ [_ [_ [_ [-> [-> _]]]]]]|]; first by [].
case=> _ [_ [_ [_ [-> [gramA [gramB [w [E [_ lam']]]]]]]]].
split; first by rewrite last_rcons.
  by rewrite size_rcons.
by rewrite all_rcons sz lam' size_ritz_values geq_minl.
Qed.

Lemma main_loop_lambda passes it v v' :
  main_loop env passes it v = Ok v' ->
  lambda_invariant env v -> lambda_invariant env v'.
Proof.
elim: passes it v => [|passes IH] it v /=; first by case=> <-.
move=> H0 inv; have [c Hc H] := bind_Ok H0.
have := loop_body_lambda Hc inv.
by case: c H {Hc} => v'' /= => [[<-]|/IH].
Qed.

Lemma main_loop_converged passes it v v' :
  main_loop env passes it v = Ok v' -> failureFlag v = true ->
  failureFlag v' = false ->
  count id (activeMask v') = 0 /\ 0 < size (residualNormsHistory v').
Proof.
elim: passes it v => [|passes IH] it v /=.
  by case=> <- ->.
move=> H0 flag flag'; have [c Hc H] := bind_Ok H0.
have [R [rn [mask [_ _ Hinv]]]] := loop_body_inv Hc.
case: c H Hinv {Hc} => v'' /=.
  by case=> <- [c0 [_ [-> [-> _]]]]; rewrite size_rcons.
move=> H [_ [flag'' _]]; apply: IH H _ flag'.
by rewrite flag''.
Qed.

Lemma main_loop_directions passes it v v' :
  main_loop env passes it v = Ok v' -> failureFlag v' = true -> 0 < passes ->
  [/\ isSome (blockVectorP v'), isSome (blockVectorAP v')
    & isSome (blockVectorBP v')].
Proof.
elim: passes it v => [|passes IH] it v //= H0 flag _.
have [c Hc H] := bind_Ok H0; move=> {H0}.
have [R [rn [mask [_ _ Hinv]]]] := loop_body_inv Hc.
case: c H Hinv Hc => v'' /=.
  by case=> E [_ [flag'' _]]; rewrite -E flag'' in flag.
case: passes IH => [|passes] IH H _ Hc.
  by case: H => <-; exact: loop_body_directions Hc.
exact: IH H flag isT.
Qed.

End MoreLoopInvariants.

(** ** [_makeOperator] *)
Section MakeOperator.

Context {K : Numpy}.


End MakeOperator.

(** ** The selection of indices *)

(** X6.  The indices selected (lines 282-284, 412-414) are distinct
    positions of the eigenvalue vector, [min sizeX (size w)] of them; when
    the vector has at most [sizeX] entries, as at the initial Rayleigh-Ritz
    step, they are all its positions: nothing is dropped. *)
Theorem ritz_indices_are_distinct_positions (lg : bool) (k : nat)
    (w : seq float) :
  [/\ uniq (ritz_indices lg k w),
      all (fun i => i < size w) (ritz_indices lg k w),
      size (ritz_indices lg k w) = minn k (size w)
    & size w <= k -> perm_eq (ritz_indices lg k w) (iota 0 (size w))].
Proof.
have U : uniq (argsort w) by rewrite sort_uniq iota_uniq.
have P : perm_eq (argsort w) (iota 0 (size w)) by rewrite perm_sort.
have S : size (argsort w) = size w by rewrite size_sort size_iota.
rewrite /ritz_indices; split.
- by case: lg; rewrite ?rev_uniq take_uniq.
- apply/allP => i; rewrite (fun_if (fun s => i \in s)) mem_rev if_same.
  by move=> /mem_take; rewrite (perm_mem P) mem_iota.
- by case: lg; rewrite ?size_rev size_take S /minn.
- move=> wk; rewrite take_oversize ?S //.
  by case: lg; rewrite ?perm_rev.
Qed.

(** ** More on the iterative path *)
Section MoreIterativePath.

Context {K : Numpy}.
Variables (A B M : option opinput) (X : ndarray) (Y : option ndarray).
Variables (tol : option float) (maxiter : Z) (lg : bool).
Variables (env : loop_env) (v0 : loop_vars).

Hypothesis prepared_ok :
  lobpcg_prepare A X B M Y tol maxiter lg = Ok (Iterate env v0).

(** X2.  When the loop is reached, the three operators have the shape (n, n) of
    the problem, the block has at most n columns, and the problem is at
    least five times as large as the block once the constraints are
    counted. *)
Theorem loop_is_entered_with_checked_operators :
  let n := nth 0 (shape X) 0 in
  [/\ dim_n env = n /\ sizeX env = nth 0 (shape X) 1,
      [/\ op_shape (A_op env) = (n, n), op_shape (B_op env) = (n, n)
        & op_shape (M_op env) = (n, n)],
      sizeX env <= n
    & exists2 sizeY, sizeY_of Y = Ok sizeY
        & (5 * Z.of_nat (sizeX env) <= Z.of_nat n - Z.of_nat sizeY)%coqZ].
Proof.
have [[sizeY EY small] [dn sx _ _] _ _] := lobpcg_prepare_Iterate prepared_ok.
have [[_ kn] [/makeOperator_Ok sA /makeOperator_Ok sB /makeOperator_Ok sM] _ _ _]
  := lobpcg_prepare_setup prepared_ok.
split=> //; first by rewrite sx.
exists sizeY => //; rewrite sx.
by move: small; rewrite /too_small => /Z.ltb_ge.
Qed.

(** X7.  The eigenvalues a run holds are the last entry of its eigenvalue
    history, and no entry of the history has more eigenvalues than the block
    has columns. *)
Theorem eigenvalues_are_the_last_history_entry (passes : nat) (v : loop_vars) :
  main_loop env passes 0 v0 = Ok v ->
  [/\ _lambda v = last [::] (lambdaHistory v),
      size (_lambda v) <= sizeX env
    & all (fun l => size l <= sizeX env) (lambdaHistory v)].
Proof.
have [_ [_ sx _ _] _ [_ _ lh0 _]] := lobpcg_prepare_Iterate prepared_ok.
have [_ _ _ _ [g [w [E [_ lam0]]]]] := lobpcg_prepare_setup prepared_ok.
have inv0 : lambda_invariant env v0.
  by split; rewrite lh0 //= andbT lam0 size_ritz_values sx geq_minl.
move=> /main_loop_lambda /(_ inv0) [lam ne sz]; split=> //.
rewrite lam -nth_last; move/(all_nthP [::]): (sz); apply.
by rewrite ltn_predL.
Qed.

(** X8.  Between passes, [previousBlockSize] is the number of active columns
    and [ident] is the identity of that order. *)
Theorem identity_has_the_active_block_size (passes : nat) (v : loop_vars) :
  main_loop env passes 0 v0 = Ok v ->
  [/\ previousBlockSize v = count id (activeMask v),
      ident v = np_eye (count id (activeMask v))
    & ident0 env = np_eye (sizeX env)].
Proof.
have [_ [_ sx _ _] _ [_ m0 _ _]] := lobpcg_prepare_Iterate prepared_ok.
have [_ _ _ [i0 iv0 pbs0] _] := lobpcg_prepare_setup prepared_ok.
have c0 : count id (activeMask v0) = nth 0 (shape X) 1.
  by rewrite m0 count_nseq mul1n.
have inv0 : block_size_invariant v0 by split; rewrite c0.
by move=> /main_loop_block_size /(_ inv0) [pbs idv]; split; rewrite // sx.
Qed.

(** X10.  With [maxiter <= 0] the loop makes no pass: the call returns the
    initial Ritz values and vectors, followed, when they are asked for, by an
    eigenvalue history whose one entry is the initial Ritz values and by an
    empty history of residual norms. *)
Theorem no_pass_without_iterations (rl rr : bool) (R : ndarray)
    (rn : seq float) :
  (maxiter <= 0)%coqZ -> residuals v0 = Ok (R, rn) ->
  lobpcg A X B M Y tol maxiter lg rl rr
  = Ok ([:: Vec (_lambda v0); Arr (blockVectorX v0)]
        ++ (if rl then [:: Hist [:: _lambda v0]] else [::])
        ++ (if rr then [:: Hist [::]] else [::])).
Proof.
have [_ [_ _ _ mi] _ [_ _ lh0 rh0]] := lobpcg_prepare_Iterate prepared_ok.
move=> m0 Hres.
have -> : lobpcg A X B M Y tol maxiter lg rl rr
          = (v <- main_loop env (Z.to_nat (maxIterations env)) 0 v0 ;;
             lobpcg_finish rl rr v).
  by rewrite /lobpcg prepared_ok.
have -> : Z.to_nat (maxIterations env) = 0 by rewrite mi; lia.
rewrite /= /lobpcg_finish Hres /= /format_result lh0 rh0.
by case: rl; case: rr.
Qed.

(** X11.  The loop makes at most [n] passes and at most [maxiter] passes. *)
Theorem passes_are_capped (v : loop_vars) :
  main_loop env (Z.to_nat (maxIterations env)) 0 v0 = Ok v ->
  size (residualNormsHistory v) <= dim_n env /\
  (Z.of_nat (size (residualNormsHistory v)) <= Z.max 0 maxiter)%coqZ.
Proof.
have [_ [dn _ _ mi] _ [flag0 _ _ rh0]] := lobpcg_prepare_Iterate prepared_ok.
move=> /main_loop_histories /(_ flag0) [lh [rh [_ -> sizes]]].
rewrite rh0 /= dn.
have: (size rh <= Z.to_nat (maxIterations env))%coq_nat.
  by case: (failureFlag v) sizes => [[_ ->]|[-> /ltP lt]]; lia.
rewrite mi => le; split; last by lia.
by apply/leP; lia.
Qed.

(** X12.  After at least one pass, [failureFlag] is unset exactly when no column
    is active any more. *)
Theorem failure_flag_tells_active_columns (passes : nat) (v : loop_vars) :
  0 < passes -> main_loop env passes 0 v0 = Ok v ->
  failureFlag v = (count id (activeMask v) != 0).
Proof.
have [_ _ _ [flag0 _ _ _]] := lobpcg_prepare_Iterate prepared_ok.
move=> pos Hloop; case flag: (failureFlag v).
  by rewrite (main_loop_not_converged Hloop).
by have [-> _] := main_loop_converged Hloop flag0 flag.
Qed.

(** X9.  The direction blocks [P], [AP] and [BP] are [None] when the loop is
    entered and are set once a pass has completed: every pass after the
    first finds them. *)
Theorem directions_are_set_after_a_pass (passes : nat) (v : loop_vars) :
  [/\ blockVectorP v0 = None, blockVectorAP v0 = None
    & blockVectorBP v0 = None] /\
  (main_loop env passes 0 v0 = Ok v -> failureFlag v = true -> 0 < passes ->
   [/\ isSome (blockVectorP v), isSome (blockVectorAP v)
     & isSome (blockVectorBP v)]).
Proof.
split; last exact: main_loop_directions.
move: prepared_ok; rewrite /lobpcg_prepare => H.
apply bind_Ok in H; case: H => [sizeY EY H].
move: H; case: eqP => //= sz2; case: ltnP => // kn H.
bind_inv H.
move: H; case Ets: too_small.
  by case: (Y) => [y|] // H; bind_inv H.
by move=> H; bind_inv H; case: H => _ <-.
Qed.

End MoreIterativePath.

(** ** More on the validation and the dense fallback *)
Section MoreControlFlow.

Context {K : Numpy}.
Variables (A B M : option opinput) (lg : bool).

(** X3.  On the dense fallback only the shape of [X] is used: two calls whose
    blocks have the same shape give the same result, whatever the entries
    of the blocks, the tolerances, the iteration bounds and the history
    flags are. *)
Theorem dense_fallback_ignores_the_block (X X' : ndarray) (n k : nat)
    (tol tol' : option float) (maxiter maxiter' : Z) (rl rr rl' rr' : bool) :
  shape X = [:: n; k] -> shape X' = [:: n; k] ->
  (Z.of_nat n - 0 < 5 * Z.of_nat k)%coqZ ->
  lobpcg A X B M None tol maxiter lg rl rr
  = lobpcg A X' B M None tol' maxiter' lg rl' rr'.
Proof.
move=> HX HX' /(too_smallP n 0 k) small.
rewrite /lobpcg /lobpcg_prepare /= HX HX' /=.
case: ltnP => //= _.
case: (_makeOperator A _) => [opA|e] //=.
case: (_makeOperator B _) => [opB|e] //=.
case: (_makeOperator M _) => [opM|e] //=.
by rewrite small; case: (dense_eigensolver _ _ _ _ _).
Qed.

(** X4.  A constraint block of rank below 2 is reported by [IndexError] before
    [X] is looked at. *)
Theorem constraints_of_low_rank (X y : ndarray) (tol : option float)
    (maxiter : Z) (rl rr : bool) :
  size (shape y) < 2 ->
  lobpcg A X B M (Some y) tol maxiter lg rl rr
  = Raise (IndexError "tuple index out of range").
Proof. by rewrite /lobpcg /lobpcg_prepare /= ltnNge => /negbTE ->. Qed.

(** X5.  On the iterative path, whatever [cho_factor] raises on the Gram matrix
    of the constraints is reported as [ValueError]: "cannot handle linearly
    dependent constraints". *)
Theorem dependent_constraints_are_a_ValueError (X y : ndarray) (n k : nat)
    (tol : option float) (maxiter : Z) (rl rr : bool)
    (opA opB opM : LinearOperator ndarray) (blockVectorBY gramYBY : ndarray)
    (e : exn) :
  shape X = [:: n; k] -> k <= n -> 1 < size (shape y) ->
  (5 * Z.of_nat k <= Z.of_nat n - Z.of_nat (nth 0%N (shape y) 1%N))%coqZ ->
  _makeOperator A (n, n) = Ok opA -> _makeOperator B (n, n) = Ok opB ->
  _makeOperator M (n, n) = Ok opM ->
  matmat opB y = Ok blockVectorBY ->
  np_dot (np_T y) blockVectorBY = Ok gramYBY ->
  cho_factor gramYBY = Raise e ->
  lobpcg A X B M (Some y) tol maxiter lg rl rr
  = Raise (ValueError "cannot handle linearly dependent constraints").
Proof.
move=> HX kn Hy big HA HB HM HBY HG Hcho.
have small : too_small n (nth 0 (shape y) 1) k = false.
  by rewrite /too_small; apply/Z.ltb_ge.
rewrite /lobpcg /lobpcg_prepare /= Hy /= HX /= ltnNge kn /= HA HB HM /= small.
by rewrite HBY /= HG /= Hcho.
Qed.

End MoreControlFlow.

(** ** [_applyConstraints] in exact arithmetic *)

Lemma applyConstraints_over_ndarray {K : Numpy} :
  @_applyConstraints K
  = applyConstraints_over (fun u w => np_dot (np_T u) w) cho_solve np_dot
      np_sub.
Proof. by []. Qed.

Section ExactConstraintsFacts.

Import GRing.Theory.
Local Open Scope ring_scope.

Variable F : fieldType.
Variables n k m : nat.
Implicit Types (V : 'M[F]_(n, k)) (Y BY : 'M[F]_(n, m)) (R : 'M[F]_m).

Lemma mx_applyConstraints_run V R BY Y :
  mx_applyConstraints V R BY Y
  = Ok (V - Y *m (invmx (R^T *m R) *m (BY^T *m V))).
Proof. by []. Qed.

(** X14.  The block returned by [_applyConstraints] has no component along the
    constraints ([BY^T V' = 0]); applying the constraints again changes
    nothing; and a block that has no such component is returned as it is.
    [R] is the factor [cho_factor] found for the Gram matrix [Y^T BY], which
    is symmetric. *)
Theorem constraints_are_projected_out V R BY Y :
  R \in unitmx -> R^T *m R = Y^T *m BY -> BY^T *m Y = Y^T *m BY ->
  exists V',
    [/\ mx_applyConstraints V R BY Y = Ok V',
        BY^T *m V' = 0,
        mx_applyConstraints V' R BY Y = Ok V'
      & BY^T *m V = 0 -> V' = V].
Proof.
move=> Ru RG sym.
have Gu : R^T *m R \in unitmx by rewrite unitmx_mul unitmx_tr Ru.
exists (V - Y *m (invmx (R^T *m R) *m (BY^T *m V))).
have orth : BY^T *m (V - Y *m (invmx (R^T *m R) *m (BY^T *m V))) = 0.
  by rewrite mulmxBr !mulmxA sym -RG mulmxV // mul1mx subrr.
split=> //; rewrite ?mx_applyConstraints_run //.
  by rewrite orth !mulmx0 subr0.
by move=> ->; rewrite !mulmx0 subr0.
Qed.

End ExactConstraintsFacts.

(** ** More on [_b_orthonormalize] *)

(** X15.  Without an operator [B], the second block [_b_orthonormalize] returns is
    the block it was given ([blockVectorBV], or [blockVectorV] itself when
    there is none), not scaled by the inverse factor; the third component
    is present exactly when [retInvR] is set. *)
Theorem b_orthonormalize_without_operator (blk sq : Type)
    (dotT : blk -> blk -> result sq) (dot : blk -> sq -> result blk)
    (chol inverse : sq -> result sq)
    (blockVectorV : blk) (blockVectorBV : option blk) (retInvR : bool) :
  match _b_orthonormalize dotT dot chol inverse None blockVectorV
          blockVectorBV retInvR with
  | Ok (V', BV', invR) =>
      BV' = (if blockVectorBV is Some bv then bv else blockVectorV) /\
      isSome invR = retInvR
  | Raise _ => True
  end.
Proof.
rewrite /_b_orthonormalize.
case: blockVectorBV => [bv|] /=.
  case: (dotT _ _) => [g|e] //=; case: (chol g) => [r|e] //=.
  case: (inverse r) => [ri|e] //=; case: (dot _ _) => [v'|e] //=.
  by case: retInvR.
case: (dotT _ _) => [g|e] //=; case: (chol g) => [r|e] //=.
case: (inverse r) => [ri|e] //=; case: (dot _ _) => [v'|e] //=.
by case: retInvR.
Qed.

Section CachedProducts.

Import Order.POrderTheory GRing.Theory Num.Theory.
Local Open Scope ring_scope.

Variable F : realFieldType.
Variables n k : nat.

(** X16.  Lines 370-373.  When the block [P] is B-orthonormalized with its cached
    product [BP = B P] and [retInvR] set, the returned [BP'] is [B] applied to
    the returned [P'], and the cached [AP = A P] multiplied by the returned
    inverse factor is [A] applied to [P']: neither operator has to be applied
    again. *)
Theorem cached_products_stay_consistent
    (chol : 'M[F]_k -> result 'M[F]_k) (A B : 'M[F]_n) (P : 'M[F]_(n, k)) :
  cholesky_contract chol (P^T *m (B *m P)) ->
  symmetric_positive_definite (P^T *m (B *m P)) ->
  exists invR : 'M[F]_k,
    [/\ mx_b_orthonormalize chol (mx_operator (Some B)) P (Some (B *m P)) true
        = Ok (P *m invR, B *m (P *m invR), Some invR),
        (A *m P) *m invR = A *m (P *m invR)
      & invR \in unitmx].
Proof.
move=> [Hpos _] spdG; have [R [cholR _ RG]] := Hpos spdG.
have Ru : R \in unitmx := cholesky_factor_unit spdG RG.
exists (invmx R); split; last by rewrite unitmx_inv.
  rewrite /mx_b_orthonormalize /_b_orthonormalize /= cholR /= /mx_inv Ru /=.
  by rewrite mulmxA.
by rewrite mulmxA.
Qed.

End CachedProducts.

(** ** The convergence test on binary64 residual norms *)

Lemma SFcompare_refl (f : spec_float) :
  SFcompare f f = if f is S754_nan then None else Some Eq.
Proof.
case: f => [s|s| |s p e] //=; try by case: s.
by case: s; rewrite Z.compare_refl Pos.compare_cont_refl.
Qed.

Lemma ltb_nan_r (x y : float) : is_nan y -> PrimFloat.ltb x y = false.
Proof.
rewrite /is_nan ltb_spec eqb_spec /SFeqb /SFltb SFcompare_refl.
by case: (Prim2SF y) => [s|s| |s p e] //; case: (Prim2SF x).
Qed.

Lemma ltb_irrefl (x : float) : PrimFloat.ltb x x = false.
Proof. by rewrite ltb_spec /SFltb SFcompare_refl; case: (Prim2SF x). Qed.

Lemma count_and_none (m ii : seq bool) :
  all negb ii -> count id [seq x.1 && x.2 | x <- zip m ii] = 0.
Proof.
elim: m ii => [|a m IH] [|b ii] //= /andP [/negbTE -> none].
by rewrite andbF IH.
Qed.

Lemma np_band_none_active (m ii m' : seq bool) :
  np_band m ii = Ok m' -> all negb ii -> count id m' = 0.
Proof.
rewrite /np_band => H none; move: H; case: ifP => [_ [<-]|_].
  exact: count_and_none.
case: ifP => [_ [<-]|_].
  by elim: ii none => [|b ii IH] //= /andP [/negbTE -> /IH ->]; rewrite andbF.
case: ifP => // /eqP sz [<-].
case: ii sz none => [|b [|]] //= _; rewrite andbT => /negbTE ->.
by elim: m => [|a m IH] //=; rewrite andbF.
Qed.

Lemma above_tolerance_nan (tol : float) (rn : seq float) :
  all is_nan rn -> all negb (above_tolerance rn tol).
Proof.
elim: rn => [|r rn IH] //= /andP [nr /IH ->].
by rewrite ltb_nan_r.
Qed.

(** X13.  Line 323 keeps a column active when [residualNorm > residualTolerance].
    A residual norm equal to the tolerance, and a residual norm that is NaN,
    do not keep it active; a pass in which every residual norm is NaN ends
    the loop by the convergence [break], with [failureFlag] unset. *)
Theorem nan_residuals_count_as_converged :
  [/\ forall tol : float, above_tolerance [:: tol] tol = [:: false],
      forall (tol : float) (rn : seq float),
        all is_nan rn -> all negb (above_tolerance rn tol)
    & forall (K : Numpy) (env : loop_env) it (v : loop_vars) c R rn,
        loop_body env it v = Ok c -> residuals v = Ok (R, rn) ->
        all is_nan rn ->
        exists2 v', c = Break v' & failureFlag v' = false].
Proof.
split=> [tol|tol rn|K env it v c R rn Hc Hres nan].
- by rewrite /above_tolerance /= ltb_irrefl.
- exact: above_tolerance_nan.
- have [R' [rn' [mask [Hres' Hm Hinv]]]] := loop_body_inv Hc.
  move: Hres' Hm; rewrite Hres => -[_ <-] Hm.
  have c0 := np_band_none_active Hm (above_tolerance_nan _ nan).
  case: c Hinv {Hc} => v' => [[_ [flag _]]|[]]; first by exists v'.
  by rewrite c0.
Qed.

(** ** The further statements at concrete inputs *)
Section MoreConcrete.

Import Reference.

Let A10 : option array := Some (diag_1_to 10).
Let A12 : option array := Some (diag_1_to 12).

(** Two equal columns: linearly dependent constraints. *)
Let Y12 : array := Array2 12 2 (nseq 12 [:: 1%float; 1%float]).

Lemma loop_is_entered_with_checked_operators_witness :
  exists env v0,
    [/\ lobpcg_prepare (K := kernel) A10 (start_block 10 2) None None None
          (Some 1e-4%float) 20 false = Ok (Iterate env v0),
        op_shape (A_op env) = (10, 10), op_shape (B_op env) = (10, 10),
        op_shape (M_op env) = (10, 10) & sizeX env <= 10].
Proof.
evaluated (lobpcg_prepare (K := kernel) A10 (start_block 10 2) None None None
             (Some 1e-4%float) 20 false).
have [_ [sA sB sM] le _] := loop_is_entered_with_checked_operators E.
eexists _, _; split; [exact E | exact sA | exact sB | exact sM | exact le].
Defined.

Lemma eigenvalues_are_the_last_history_entry_witness :
  exists env v0 v,
    [/\ lobpcg_prepare (K := kernel) A10 (start_block 10 2) None None None
          (Some 1e-4%float) 20 false = Ok (Iterate env v0),
        main_loop env 2 0 v0 = Ok v,
        _lambda v = last [::] (lambdaHistory v)
      & size (_lambda v) <= sizeX env].
Proof.
evaluated (lobpcg_prepare (K := kernel) A10 (start_block 10 2) None None None
             (Some 1e-4%float) 20 false).
match type of E with _ = Ok (Iterate ?env ?v0) =>
  evaluated (main_loop env 2 0 v0)
end.
have [H1 H2 _] := eigenvalues_are_the_last_history_entry E E0.
eexists _, _, _; split; [exact E | exact E0 | exact H1 | exact H2].
Defined.

Lemma identity_has_the_active_block_size_witness :
  exists env v0 v,
    [/\ lobpcg_prepare (K := kernel) A10 (start_block 10 2) None None None
          (Some 1e-4%float) 20 false = Ok (Iterate env v0),
        main_loop env 2 0 v0 = Ok v,
        previousBlockSize v = count id (activeMask v)
      & ident v = np_eye (count id (activeMask v))].
Proof.
evaluated (lobpcg_prepare (K := kernel) A10 (start_block 10 2) None None None
             (Some 1e-4%float) 20 false).
match type of E with _ = Ok (Iterate ?env ?v0) =>
  evaluated (main_loop env 2 0 v0)
end.
have [H1 H2 _] := identity_has_the_active_block_size E E0.
eexists _, _, _; split; [exact E | exact E0 | exact H1 | exact H2].
Defined.

Lemma no_pass_without_iterations_witness :
  exists v0 : loop_vars,
    lobpcg (K := kernel) A10 (start_block 10 2) None None None
      (Some 1e-4%float) 0 false true true
    = Ok [:: Vec (_lambda v0); Arr (blockVectorX v0);
             Hist [:: _lambda v0]; Hist [::]].
Proof.
evaluated (lobpcg_prepare (K := kernel) A10 (start_block 10 2) None None None
             (Some 1e-4%float) 0 false).
match type of E with _ = Ok (Iterate ?env ?v0) => evaluated (residuals v0) end.
have le : (0 <= 0)%coqZ by [].
eexists; exact (no_pass_without_iterations E true true le E0).
Defined.

Lemma passes_are_capped_witness :
  exists env v0 v,
    [/\ lobpcg_prepare (K := kernel) A10 (start_block 10 2) None None None
          (Some 1e-4%float) 1 false = Ok (Iterate env v0),
        main_loop env (Z.to_nat (maxIterations env)) 0 v0 = Ok v
      & size (residualNormsHistory v) <= 10].
Proof.
evaluated (lobpcg_prepare (K := kernel) A10 (start_block 10 2) None None None
             (Some 1e-4%float) 1 false).
match type of E with _ = Ok (Iterate ?env ?v0) =>
  evaluated (main_loop env (Z.to_nat (maxIterations env)) 0 v0)
end.
have [H1 _] := passes_are_capped E E0.
eexists _, _, _; split; [exact E | exact E0 | exact H1].
Defined.

Lemma failure_flag_tells_active_columns_witness :
  exists env v0 v,
    [/\ lobpcg_prepare (K := kernel) A10 (start_block 10 2) None None None
          (Some 1e-4%float) 20 false = Ok (Iterate env v0),
        main_loop env 10 0 v0 = Ok v
      & failureFlag v = (count id (activeMask v) != 0)].
Proof.
evaluated (lobpcg_prepare (K := kernel) A10 (start_block 10 2) None None None
             (Some 1e-4%float) 20 false).
match type of E with _ = Ok (Iterate ?env ?v0) =>
  evaluated (main_loop env 10 0 v0)
end.
have H := failure_flag_tells_active_columns E (passes := 10) isT E0.
eexists _, _, _; split; [exact E | exact E0 | exact H].
Defined.

Lemma directions_are_set_after_a_pass_witness :
  exists env v0 v,
    [/\ lobpcg_prepare (K := kernel) A10 (start_block 10 2) None None None
          (Some 1e-4%float) 20 false = Ok (Iterate env v0),
        blockVectorP v0 = None, main_loop env 1 0 v0 = Ok v
      & isSome (blockVectorP v)].
Proof.
evaluated (lobpcg_prepare (K := kernel) A10 (start_block 10 2) None None None
             (Some 1e-4%float) 20 false).
match type of E with _ = Ok (Iterate ?env ?v0) =>
  evaluated (main_loop env 1 0 v0)
end.
match type of E0 with _ = Ok ?v =>
  have [[H0 _ _] H] := directions_are_set_after_a_pass E 1 v
end.
have [H1 _ _] := H E0 erefl isT.
eexists _, _, _; split; [exact E | exact H0 | exact E0 | exact H1].
Defined.

Lemma dense_fallback_ignores_the_block_witness :
  lobpcg (K := kernel) A10 (start_block 10 5) None None None None 20 true
    false false
  = lobpcg (K := kernel) A10 (Array2 10 5 (nseq 10 (nseq 5 0%float))) None
      None None (Some 1e-4%float) 3 true true true.
Proof.
have H1 : @shape kernel (start_block 10 5) = [:: 10; 5] by [].
have H2 : @shape kernel (Array2 10 5 (nseq 10 (nseq 5 0%float)))
          = [:: 10; 5] by [].
have H3 : (Z.of_nat 10 - 0 < 5 * Z.of_nat 5)%coqZ by [].
exact (@dense_fallback_ignores_the_block kernel A10 None None true _ _ 10 5
         None (Some 1e-4%float) 20 3 false false true true H1 H2 H3).
Defined.

Lemma constraints_of_low_rank_witness :
  lobpcg (K := kernel) A10 (start_block 10 2) None None
    (Some (Array1 [:: 1%float; 0%float])) None 20 true false false
  = Raise (IndexError "tuple index out of range").
Proof.
exact (@constraints_of_low_rank kernel A10 None None true (start_block 10 2)
         (Array1 [:: 1%float; 0%float]) None 20 false false isT).
Defined.

Lemma dependent_constraints_are_a_ValueError_witness :
  lobpcg (K := kernel) A12 (start_block 12 2) None None (Some Y12) None 20
    false false false
  = Raise (ValueError "cannot handle linearly dependent constraints").
Proof.
have H1 : @shape kernel (start_block 12 2) = [:: 12; 2] by [].
have H2 : 1 < size (@shape kernel Y12) by [].
have H3 : (5 * Z.of_nat 2
           <= Z.of_nat 12 - Z.of_nat (nth 0%N (@shape kernel Y12) 1%N))%coqZ
  by [].
evaluated (_makeOperator (K := kernel) A12 (12, 12)).
evaluated (_makeOperator (K := kernel) None (12, 12)).
match type of E0 with _ = Ok ?opB => evaluated (matmat opB Y12) end.
match type of E1 with _ = Ok ?BY =>
  evaluated (np_dot (Numpy := kernel) (np_T Y12) BY)
end.
match type of E2 with _ = Ok ?G => evaluated (cho_factor (Numpy := kernel) G) end.
exact (@dependent_constraints_are_a_ValueError kernel A12 None None false
         (start_block 12 2) Y12 12 2 None 20 false false _ _ _ _ _ _
         H1 isT H2 H3 E E0 E0 E1 E2 E3).
Defined.

End MoreConcrete.

Section MoreExactArithmeticAtTwo.

Import Order.POrderTheory GRing.Theory Num.Theory.
Local Open Scope ring_scope.

Lemma constraints_are_projected_out_witness :
  exists V' : 'M[rat]_1,
    mx_applyConstraints (3%:R)%:M 1%:M 1%:M 1%:M = Ok V' /\
    (1%:M : 'M[rat]_1)^T *m V' = 0.
Proof.
have [V' [run orth _ _]] :=
  @constraints_are_projected_out rat 1 1 1 (3%:R)%:M 1%:M 1%:M 1%:M
    (unitmx1 _ _) erefl erefl.
by exists V'.
Defined.

Lemma cached_products_stay_consistent_witness :
  exists invR : 'M[rat]_1,
    mx_b_orthonormalize cholesky_of_4 (mx_operator (Some 1%:M)) (2%:R)%:M
      (Some (1%:M *m (2%:R)%:M)) true
    = Ok ((2%:R)%:M *m invR, 1%:M *m ((2%:R)%:M *m invR), Some invR) /\
    ((3%:R)%:M *m (2%:R)%:M) *m invR = (3%:R)%:M *m ((2%:R)%:M *m invR).
Proof.
have contract :
  cholesky_contract cholesky_of_4
    (((2%:R)%:M : 'M[rat]_1)^T *m (1%:M *m (2%:R)%:M)).
  by rewrite mul1mx; exact: cholesky_of_4_contract.
have spdG :
  symmetric_positive_definite
    (((2%:R)%:M : 'M[rat]_1)^T *m (1%:M *m (2%:R)%:M)).
  by rewrite mul1mx; have := spd_4; rewrite -gram_of_2.
have [invR [run AP _]] :=
  @cached_products_stay_consistent rat 1 1 cholesky_of_4 (3%:R)%:M 1%:M
    (2%:R)%:M contract spdG.
by exists invR.
Defined.

End MoreExactArithmeticAtTwo.
